(** * A shallow embedding of the computation graph of [src/main.rs]

    The Rust code shares nodes through [Rc<RefCell<Node>>] handles.  We model
    the heap of nodes as an arena: a [list Node] indexed by [nat], a handle
    being the index of its node.  Nodes are only ever appended (the Rust
    program never frees a node that is still reachable through a handle), so
    an index stays valid forever.

    The scalar type [f32] and its operations [+], [*], [powf] and [sin] are
    kept abstract behind the class [F32Ops]: none of the properties below
    depends on the rounding behaviour of IEEE-754 single precision. *)

From Stdlib Require Import String ZArith Relations Lia.
From stdpp Require Import base list sets.

(** The operations of [f32] used by the program. *)
Class F32Ops (F : Type) := {
  f32_add : F -> F -> F;
  f32_mul : F -> F -> F;
  f32_powf : F -> F -> F;
  f32_sin : F -> F
}.

(** An integer stand-in, used only to run the definitions on examples. *)
#[export] Instance Z_ops : F32Ops Z := {
  f32_add := Z.add;
  f32_mul := Z.mul;
  f32_powf := Z.pow;
  f32_sin := Z.opp
}.

(** A handle ([Graph] in Rust) is the arena index of its node. *)
Abbreviation Graph := nat (only parsing).

Section Graph.

Context {F : Type} `{F32Ops F}.

(** [enum OperationType] *)
Inductive OperationType :=
| Input (name : string)
| Add (op1 op2 : Graph)
| Mul (op1 op2 : Graph)
| Sin (op : Graph)
| PowF32 (b exp : Graph).

(** [struct Node] *)
Record Node := mk_node {
  op_type : OperationType;
  dependent_nodes : list Graph;
  cache : option F
}.

(** The arena of all nodes. *)
Local Abbreviation state := (list Node).

Definition with_cache (nd : Node) (c : option F) : Node :=
  mk_node (op_type nd) (dependent_nodes nd) c.

Definition with_dependents (nd : Node) (ds : list Graph) : Node :=
  mk_node (op_type nd) ds (cache nd).

(** Overwrite the [cache] field of node [i] through its [RefMut]. *)
Definition set_cache (s : state) (i : Graph) (c : option F) : state :=
  match s !! i with
  | Some nd => <[i := with_cache nd c]> s
  | None => s
  end.

(** Accessors used by the statements. *)
Definition cache_of (s : state) (i : Graph) : option F :=
  match s !! i with Some nd => cache nd | None => None end.

Definition deps_of (s : state) (i : Graph) : list Graph :=
  match s !! i with Some nd => dependent_nodes nd | None => [] end.

(** The part of the arena that only construction writes. *)
Definition shape (s : state) : list (OperationType * list Graph) :=
  (fun nd => (op_type nd, dependent_nodes nd)) <$> s.

(** ** Construction ([Node::new], [wrap], [add_dependent_node]) *)

Definition new_node (s : state) (nd : Node) : Graph * state :=
  (length s, s ++ [nd]).

(** [op.dependent_nodes.push(self.clone())] *)
Definition add_dependent_node (self op : Graph) (s : state) : state :=
  match s !! op with
  | Some nd => <[op := with_dependents nd (dependent_nodes nd ++ [self])]> s
  | None => s
  end.

Definition create_input (s : state) (val : string) : Graph * state :=
  new_node s (mk_node (Input val) [] None).

Definition add (s : state) (op1 op2 : Graph) : Graph * state :=
  let '(node, s1) := new_node s (mk_node (Add op1 op2) [] None) in
  (node, add_dependent_node node op2 (add_dependent_node node op1 s1)).

Definition mul (s : state) (op1 op2 : Graph) : Graph * state :=
  let '(node, s1) := new_node s (mk_node (Mul op1 op2) [] None) in
  (node, add_dependent_node node op2 (add_dependent_node node op1 s1)).

Definition pow_f32 (s : state) (b exp : Graph) : Graph * state :=
  let '(node, s1) := new_node s (mk_node (PowF32 b exp) [] None) in
  (node, add_dependent_node node exp (add_dependent_node node b s1)).

Definition sin (s : state) (op : Graph) : Graph * state :=
  let '(node, s1) := new_node s (mk_node (Sin op) [] None) in
  (node, add_dependent_node node op s1).

(** ** The state and panic monad of the evaluation

    A Rust panic unwinds the stack but keeps every [RefCell] write already
    done (the [RefMut] guards are released, [RefCell] is not poisoned), so a
    failed run still carries the arena as it was when the panic occurred. *)

Inductive panic :=
| UnwrapNone        (** [Option::unwrap] on [None] *)
| DanglingHandle    (** never raised on arenas built by the API *)
| OutOfFuel.        (** idem: the fuel bounds the recursion depth *)

Inductive outcome (A : Type) :=
| Ok (a : A) (s : state)
| Err (e : panic) (s : state).
Arguments Ok {A} a s.
Arguments Err {A} e s.

Definition M (A : Type) := state -> outcome A.

Definition ret {A} (a : A) : M A := fun s => Ok a s.

Definition bind {A B} (m : M A) (k : A -> M B) : M B :=
  fun s => match m s with
           | Ok a s' => k a s'
           | Err e s' => Err e s'
           end.

Definition fail {A} (e : panic) : M A := fun s => Err e s.

Notation "'let*' x ':=' m 'in' k" := (bind m (fun x => k))
  (at level 200, x name, m at level 100, right associativity).

(** [node.0.as_ref().borrow_mut()] *)
Definition node_at (i : Graph) : M Node :=
  fun s => match s !! i with
           | Some nd => Ok nd s
           | None => Err DanglingHandle s
           end.

(** [Option::unwrap] *)
Definition unwrap {A} (o : option A) : M A :=
  match o with Some a => ret a | None => fail UnwrapNone end.

(** [node.cache.replace(res)] *)
Definition put_cache (i : Graph) (c : option F) : M unit :=
  fun s => Ok tt (set_cache s i c).

(** ** [Graph::traverse] and [Graph::compute]

    [fuel] bounds the recursion depth; on arenas built by the API the
    operands of node [i] have smaller indices, so [length s] is enough. *)
Fixpoint traverse (fuel : nat) (node : Graph) : M F :=
  match fuel with
  | O => fail OutOfFuel
  | S fuel' =>
    let* nd := node_at node in
    match cache nd with
    | Some c => ret c
    | None =>
      match op_type nd with
      | Input _ => unwrap (cache nd)
      | Add op1 op2 =>
        let* x := traverse fuel' op1 in
        let* y := traverse fuel' op2 in
        let res := f32_add x y in
        let* _ := put_cache node (Some res) in
        ret res
      | Mul op1 op2 =>
        let* x := traverse fuel' op1 in
        let* y := traverse fuel' op2 in
        let res := f32_mul x y in
        let* _ := put_cache node (Some res) in
        ret res
      | Sin op =>
        let* x := traverse fuel' op in
        let res := f32_sin x in
        let* _ := put_cache node (Some res) in
        ret res
      | PowF32 b exp =>
        let* x := traverse fuel' b in
        let* y := traverse fuel' exp in
        let res := f32_powf x y in
        let* _ := put_cache node (Some res) in
        ret res
      end
    end
  end.

Definition compute (self : Graph) : M F :=
  fun s => traverse (length s) self s.

(** ** [Graph::clear_cash] and [Graph::set] *)
Fixpoint clear_cash (fuel : nat) (s : state) (node : Graph) : state :=
  match fuel with
  | O => s
  | S fuel' =>
    match s !! node with
    | None => s
    | Some nd =>
      fold_left (fun acc dep => clear_cash fuel' acc dep)
        (dependent_nodes nd) (set_cache s node None)
    end
  end.

Definition set (s : state) (self : Graph) (new_val : F) : state :=
  match s !! self with
  | Some nd =>
    match op_type nd with
    | Input _ => set_cache (clear_cash (length s) s self) self (Some new_val)
    | _ => s
    end
  | None => s
  end.


(** ** Well-formed arenas: what the construction API builds *)

Definition operands (op : OperationType) : list Graph :=
  match op with
  | Input _ => []
  | Add a b | Mul a b | PowF32 a b => [a; b]
  | Sin a => [a]
  end.

(** Operands precede their node (acyclicity by construction order) and
    dependents follow it. *)
Definition wf (s : state) : Prop :=
  forall i nd, s !! i = Some nd ->
    (forall o, o ∈ operands (op_type nd) -> o < i) /\
    (forall d, d ∈ dependent_nodes nd -> i < d < length s).

(** [s'] is [s] with some empty caches filled: no operation, dependents list
    or present cache changes. *)
Definition fills (s s' : state) : Prop :=
  shape s' = shape s /\
  forall j, cache_of s' j = cache_of s j \/
            (cache_of s j = None /\ exists v, cache_of s' j = Some v).

Definition final {A} (o : outcome A) : state :=
  match o with Ok _ s' => s' | Err _ s' => s' end.

(** Direct dependent edges and reachability through them. *)
Definition dep_edge (s : state) (i j : Graph) : Prop := j ∈ deps_of s i.

Definition reach (s : state) : Graph -> Graph -> Prop :=
  clos_refl_trans_1n Graph (dep_edge s).

Definition reach_plus (s : state) : Graph -> Graph -> Prop :=
  clos_trans_1n Graph (dep_edge s).

(** A decision procedure for [wf]. *)
Definition wfb (s : state) : bool :=
  forallb (fun i =>
    match s !! i with
    | Some nd =>
      forallb (fun o => o <? i) (operands (op_type nd)) &&
      forallb (fun d => (i <? d) && (d <? length s)) (dependent_nodes nd)
    | None => false
    end) (seq 0 (length s)).

(** Dependent paths of a given length. *)
Inductive dpath (s : state) : nat -> Graph -> Graph -> Prop :=
| dpath_nil i : dpath s 0 i i
| dpath_cons k i d j : dep_edge s i d -> dpath s k d j -> dpath s (S k) i j.

(** Reference semantics, not from the source: the value of the expression
    rooted at [n] over the values held by the input nodes, ignoring every
    operator cache.  [None] when an input below [n] is unset. *)
Fixpoint denot (fuel : nat) (s : state) (n : Graph) : option F :=
  match fuel with
  | O => None
  | S f =>
    match s !! n with
    | None => None
    | Some nd =>
      match op_type nd with
      | Input _ => cache nd
      | Add a b =>
        match denot f s a, denot f s b with
        | Some x, Some y => Some (f32_add x y) | _, _ => None end
      | Mul a b =>
        match denot f s a, denot f s b with
        | Some x, Some y => Some (f32_mul x y) | _, _ => None end
      | Sin a =>
        match denot f s a with Some x => Some (f32_sin x) | None => None end
      | PowF32 b e =>
        match denot f s b, denot f s e with
        | Some x, Some y => Some (f32_powf x y) | _, _ => None end
      end
    end
  end.

(** Operands have smaller indices, so fuel [S n] suffices at node [n]. *)
Definition value (s : state) (n : Graph) : option F := denot (S n) s n.

(** Every present cache holds the value of its node. *)
Definition coherent (s : state) : Prop :=
  forall n v, cache_of s n = Some v -> value s n = Some v.

(** Every operand edge has its reverse edge in the operand's dependents. *)
Definition back_edges (s : state) : Prop :=
  forall n nd o, s !! n = Some nd -> o ∈ operands (op_type nd) -> n ∈ deps_of s o.

(** Every input node has a value. *)
Definition inputs_set (s : state) : Prop :=
  forall j nd name, s !! j = Some nd -> op_type nd = Input name -> cache nd <> None.

(** Operand edges and reachability through them. *)
Definition op_edge (s : state) (n o : Graph) : Prop :=
  exists nd, s !! n = Some nd /\ o ∈ operands (op_type nd).

Definition oreach (s : state) : Graph -> Graph -> Prop :=
  clos_refl_trans_1n Graph (op_edge s).

(** Every dependent edge has its operand edge: a node lists as dependents
    only nodes that have it as an operand. *)
Definition dep_sound (s : state) : Prop :=
  forall o d, d ∈ deps_of s o -> op_edge s d o.

(** The nodes [clear_cash fuel s node] visits: [node] and, recursively, its
    dependents, as long as the fuel lasts. *)
Fixpoint cleared (fuel : nat) (s : state) (node : Graph) : list Graph :=
  match fuel with
  | O => []
  | S f =>
    match s !! node with
    | None => []
    | Some nd => node :: flat_map (cleared f s) (dependent_nodes nd)
    end
  end.

(** The net effect of a constructor on the arena [s]: it returns the handle
    [m] of a new last node of operation [op], with no dependents and no
    cache, and every older node [j] gets [m] appended to its dependents once
    per occurrence of [j] among the operands of [op]. *)
Definition built (s s' : state) (m : Graph) (op : OperationType) : Prop :=
  m = length s /\ length s' = S (length s) /\
  s' !! m = Some (mk_node op [] None) /\
  forall j nd, s !! j = Some nd ->
    s' !! j = Some (mk_node (op_type nd)
                      (dependent_nodes nd ++ repeat m (count_occ Nat.eq_dec (operands op) j))
                      (cache nd)).

(** The arenas a program can reach through the public API: constructors on
    handles it holds, [set] and [compute] (also a panicking one) in any
    order. *)
Inductive api : state -> Prop :=
| api_nil : api []
| api_create_input s name : api s -> api (create_input s name).2
| api_add s a b : api s -> a < length s -> b < length s -> api (add s a b).2
| api_mul s a b : api s -> a < length s -> b < length s -> api (mul s a b).2
| api_pow_f32 s b e : api s -> b < length s -> e < length s -> api (pow_f32 s b e).2
| api_sin s a : api s -> a < length s -> api (sin s a).2
| api_set s i v : api s -> api (set s i v)
| api_compute s n : api s -> api (final (compute n s)).

(** A decision procedure for [inputs_set]. *)
Definition inputs_setb (s : state) : bool :=
  forallb (fun nd => match op_type nd with
                     | Input _ => match cache nd with Some _ => true | None => false end
                     | _ => true
                     end) s.

(** Input nodes keep their caches. *)
Definition inputs_same (s s' : state) : Prop :=
  forall k nd name, s !! k = Some nd -> op_type nd = Input name ->
                    cache_of s' k = cache_of s k.

(** The reference value only grows when nodes are added or dependents change. *)
Definition extends (s s' : state) : Prop :=
  forall k nd, s !! k = Some nd ->
    exists nd', s' !! k = Some nd' /\ op_type nd' = op_type nd /\ cache nd' = cache nd.

End Graph.

Arguments Ok {F A} a s.
Arguments Err {F A} e s.

Notation "'let*' x ':=' m 'in' k" := (bind m (fun x => k))
  (at level 200, x name, m at level 100, right associativity).

(** ** Example arenas, with the integer stand-in for [f32] *)

Open Scope string_scope.

(** The graph of the Rust test, [x1 + x2 * sin(x2 + x3 ^ x4)], with the
    inputs set to 1, 2, 3, 3.  Handles: x1 = 0, x2 = 1, x3 = 2, x4 = 3,
    [pow_f32] = 4, inner [add] = 5, [sin] = 6, [mul] = 7, root [add] = 8. *)
Definition ref_graph : list (@Node Z) :=
  let '(x1, s) := create_input [] "x1" in
  let '(x2, s) := create_input s "x2" in
  let '(x3, s) := create_input s "x3" in
  let '(x4, s) := create_input s "x4" in
  let '(p, s) := pow_f32 s x3 x4 in
  let '(a, s) := add s x2 p in
  let '(sn, s) := sin s a in
  let '(m, s) := mul s x2 sn in
  let '(_, s) := add s x1 m in
  let s := set s x1 1%Z in
  let s := set s x2 2%Z in
  let s := set s x3 3%Z in
  set s x4 3%Z.

(** The same arena after [graph.compute()]. *)
Definition ref_computed : list (@Node Z) := final (compute 8 ref_graph).

(** [mul(x, x)] over a fresh input: x = 0, product = 1. *)
Definition square_graph : list (@Node Z) :=
  let '(x, s) := create_input [] "x" in snd (mul s x x).

(** [(x1 + x1) + x2] with only x1 set: x1 = 0, x2 = 1, inner [add] = 2,
    root [add] = 3. *)
Definition partial_graph : list (@Node Z) :=
  let '(x1, s) := create_input [] "x1" in
  let '(x2, s) := create_input s "x2" in
  let '(a, s) := add s x1 x1 in
  let '(_, s) := add s a x2 in
  set s x1 1%Z.

(** [x + y] built and set through the API, with x = 2 and y = 3:
    x = 0, y = 1, [add] = 2. *)
Definition sum_graph : list (@Node Z) :=
  set (set (add (create_input (create_input [] "x").2 "y").2 0 1).2 0 2%Z) 1 3%Z.

(** The same arena after [compute] on the sum. *)
Definition sum_computed : list (@Node Z) := final (compute 2 sum_graph).

Close Scope string_scope.

Section Proofs.

Context {F : Type} `{F32Ops F}.
Local Abbreviation state := (list (@Node F)).
Implicit Types (s acc t : state) (i j : Graph).

Lemma length_set_cache s i c : length (set_cache s i c) = length s.
Proof.
  unfold set_cache. destruct (s !! i); [apply length_insert | done].
Qed.

Lemma shape_set_cache s i c : shape (set_cache s i c) = shape s.
Proof.
  unfold set_cache, shape. destruct (s !! i) as [nd|] eqn:E; [|done].
  rewrite list_fmap_insert. apply list_insert_id.
  rewrite list_lookup_fmap, E. done.
Qed.

Lemma cache_of_set_cache_eq s i c :
  i < length s -> cache_of (set_cache s i c) i = c.
Proof.
  intros Hi. unfold cache_of, set_cache.
  destruct (s !! i) as [nd|] eqn:E.
  - rewrite list_lookup_insert_eq by done. done.
  - apply lookup_ge_None in E. lia.
Qed.

Lemma cache_of_set_cache_ne s i j c :
  i <> j -> cache_of (set_cache s i c) j = cache_of s j.
Proof.
  intros Hij. unfold cache_of, set_cache.
  destruct (s !! i); [|done]. rewrite list_lookup_insert_ne by done. done.
Qed.

Lemma shape_lookup s s' i nd :
  shape s = shape s' -> s !! i = Some nd ->
  exists nd', s' !! i = Some nd' /\ op_type nd' = op_type nd /\
              dependent_nodes nd' = dependent_nodes nd.
Proof.
  intros Hs Hi. assert (Hl : shape s' !! i = Some (op_type nd, dependent_nodes nd)).
  { rewrite <- Hs. unfold shape. rewrite list_lookup_fmap, Hi. done. }
  unfold shape in Hl. rewrite list_lookup_fmap in Hl.
  destruct (s' !! i) as [nd'|]; simpl in Hl; [|discriminate].
  injection Hl as <- <-. eauto.
Qed.

Lemma shape_length s s' : shape s = shape s' -> length s = length s'.
Proof. intros Hs. unfold shape in Hs. rewrite <- (length_fmap (fun nd => (op_type nd, dependent_nodes nd)) s), Hs, length_fmap. done. Qed.

Lemma shape_lookup_None s s' i :
  shape s = shape s' -> s !! i = None -> s' !! i = None.
Proof.
  intros Hs Hi. apply lookup_ge_None in Hi. apply lookup_ge_None.
  rewrite <- (shape_length _ _ Hs). done.
Qed.

Lemma shape_deps_of s s' i : shape s = shape s' -> deps_of s i = deps_of s' i.
Proof.
  intros Hs. unfold deps_of. destruct (s !! i) as [nd|] eqn:E.
  - destruct (shape_lookup _ _ _ _ Hs E) as (nd' & -> & _ & ->). done.
  - rewrite (shape_lookup_None _ _ _ Hs E). done.
Qed.

Lemma wf_shape s s' : shape s = shape s' -> wf s -> wf s'.
Proof.
  intros Hs Hwf i nd' Hi.
  destruct (s !! i) as [nd|] eqn:E.
  - destruct (shape_lookup _ _ _ _ Hs E) as (nd'' & Hi' & Hop & Hd).
    rewrite Hi in Hi'. injection Hi' as <-.
    rewrite Hop, Hd, <- (shape_length _ _ Hs). apply (Hwf i nd E).
  - rewrite (shape_lookup_None _ _ _ Hs E) in Hi. discriminate.
Qed.

Lemma fills_refl s : fills s s.
Proof. split; [done|]. intros j. left. done. Qed.

Lemma fills_trans s1 s2 s3 : fills s1 s2 -> fills s2 s3 -> fills s1 s3.
Proof.
  intros [H12 C12] [H23 C23]. split; [congruence|].
  intros j. destruct (C12 j) as [E1|[E1 [v1 E1']]];
    destruct (C23 j) as [E2|[E2 [v2 E2']]].
  - left. congruence.
  - right. split; [congruence|eauto].
  - right. split; [done|]. exists v1. congruence.
  - congruence.
Qed.

Lemma fills_put s s' i v :
  fills s s' -> cache_of s i = None -> i < length s ->
  fills s (set_cache s' i (Some v)).
Proof.
  intros [Hs C] Hn Hi. split; [rewrite shape_set_cache; done|].
  intros j. destruct (decide (i = j)) as [<-|Hij].
  - right. split; [done|]. exists v. apply cache_of_set_cache_eq.
    rewrite (shape_length _ _ Hs). done.
  - rewrite cache_of_set_cache_ne by done. apply C.
Qed.

Lemma lookup_cache_of s i nd : s !! i = Some nd -> cache_of s i = cache nd.
Proof. unfold cache_of. intros ->. done. Qed.

(** Case analysis on the recursive calls of [traverse]. *)
Ltac split_calls :=
  repeat match goal with
  | |- context [match traverse ?f ?a ?s with _ => _ end] =>
      let E := fresh "E" in destruct (traverse f a s) eqn:E
  end.

Lemma fills_final_traverse f i s : fills s (final (traverse f i s)).
Proof.
  revert i s. induction f as [|f IH]; intros i s; [apply fills_refl|].
  simpl. unfold bind, node_at.
  destruct (s !! i) as [nd|] eqn:Ei; [|apply fills_refl].
  destruct (cache nd) as [c|] eqn:Ec; [apply fills_refl|].
  assert (Hi : i < length s) by (eapply lookup_lt_Some; eauto).
  assert (Hc : cache_of s i = None) by (rewrite (lookup_cache_of _ _ _ Ei); done).
  destruct (op_type nd); simpl; [apply fills_refl| | | |];
  split_calls; simpl;
  repeat match goal with
  | E : traverse ?f ?a ?s0 = _ |- _ =>
      let K := fresh "K" in
      pose proof (IH a s0) as K; rewrite E in K; simpl in K; clear E
  end;
  first [ eapply fills_put; [eapply fills_trans; eassumption | done | done]
        | eapply fills_put; [eassumption | done | done]
        | eapply fills_trans; eassumption
        | assumption ].
Qed.

Lemma fills_length s s' : fills s s' -> length s' = length s.
Proof. intros [Hs _]. apply shape_length. done. Qed.

Lemma fills_wf s s' : fills s s' -> wf s -> wf s'.
Proof. intros [Hs _]. apply wf_shape. done. Qed.

(** A successful [traverse] leaves its result in the node's cache. *)
Lemma traverse_caches f i s :
  match traverse f i s with
  | Ok v s' => cache_of s' i = Some v
  | Err _ _ => True
  end.
Proof.
  destruct f as [|f]; [done|]. simpl. unfold bind, node_at.
  destruct (s !! i) as [nd|] eqn:Ei; [|done].
  destruct (cache nd) as [c|] eqn:Ec.
  { simpl. rewrite (lookup_cache_of _ _ _ Ei). done. }
  assert (Hi : i < length s) by (eapply lookup_lt_Some; eauto).
  destruct (op_type nd); simpl; [done| | | |];
  split_calls; simpl; try done;
  apply cache_of_set_cache_eq;
  repeat match goal with
  | E : traverse ?f ?a ?s0 = Ok _ ?s1 |- _ =>
      let K := fresh "K" in
      pose proof (fills_final_traverse f a s0) as K; rewrite E in K; simpl in K;
      apply fills_length in K; clear E
  end; lia.
Qed.

Lemma wf_operands s i nd :
  wf s -> s !! i = Some nd -> forall o, o ∈ operands (op_type nd) -> o < i.
Proof. intros Hwf Ei. apply (Hwf i nd Ei). Qed.

(** On a well-formed arena any fuel above the node index gives the same run. *)
Lemma traverse_fuel f f' i s :
  wf s -> i < f -> i < f' -> traverse f i s = traverse f' i s.
Proof.
  revert f' i s. induction f as [|f IH]; intros f' i s Hwf Hf Hf'; [lia|].
  destruct f' as [|f']; [lia|]. simpl. unfold bind, node_at.
  destruct (s !! i) as [nd|] eqn:Ei; [|done].
  destruct (cache nd) as [c|]; [done|].
  pose proof (wf_operands _ _ _ Hwf Ei) as Hop.
  destruct (op_type nd) as [|a b|a b|a|a b]; simpl in Hop; [done| | | |];
  [ assert (a < i) by (apply Hop; left); assert (b < i) by (apply Hop; right; left)
  | assert (a < i) by (apply Hop; left); assert (b < i) by (apply Hop; right; left)
  | assert (a < i) by (apply Hop; left)
  | assert (a < i) by (apply Hop; left); assert (b < i) by (apply Hop; right; left) ];
  rewrite (IH f' a s) by (done || lia);
  destruct (traverse f' a s) as [x s1|] eqn:Ea; try done;
  try (assert (Hwf1 : wf s1)
         by (apply (fills_wf s); [pose proof (fills_final_traverse f' a s) as K;
                                  rewrite Ea in K; exact K | done]);
       rewrite (IH f' b s1) by (done || lia));
  done.
Qed.

(** ** Invalidation *)

Lemma shape_fold_clear f (l : list Graph) acc :
  (forall s i, shape (clear_cash f s i) = shape s) ->
  shape (fold_left (fun acc d => clear_cash f acc d) l acc) = shape acc.
Proof.
  intros Hf. revert acc. induction l as [|d l IHl]; intros acc; [done|].
  simpl. rewrite IHl. apply Hf.
Qed.

Lemma shape_clear_cash f s i : shape (clear_cash f s i) = shape s.
Proof.
  revert s i. induction f as [|f IH]; intros s i; [done|]. simpl.
  destruct (s !! i) as [nd|]; [|done].
  rewrite shape_fold_clear by done. apply shape_set_cache.
Qed.

Lemma length_clear_cash f s i : length (clear_cash f s i) = length s.
Proof. apply shape_length. apply shape_clear_cash. Qed.

Lemma reach_shape s s' i j : shape s = shape s' -> reach s i j -> reach s' i j.
Proof.
  intros Hs Hr. induction Hr as [|x y z Hxy _ IHr].
  - apply Relation_Operators.rt1n_refl.
  - eapply Relation_Operators.rt1n_trans; [|exact IHr]. unfold dep_edge in *.
    rewrite <- (shape_deps_of _ _ _ Hs). done.
Qed.

Lemma dpath_shape s s' k i j : shape s = shape s' -> dpath s k i j -> dpath s' k i j.
Proof.
  intros Hs Hp. induction Hp as [|k x y z Hxy _ IHp].
  - constructor.
  - econstructor; [|exact IHp]. unfold dep_edge in *.
    rewrite <- (shape_deps_of _ _ _ Hs). done.
Qed.

(** Clearing never fills a cache. *)
Lemma clear_cash_keeps_None f s i j :
  cache_of s j = None -> cache_of (clear_cash f s i) j = None.
Proof.
  revert s i. induction f as [|f IH]; intros s i Hj; [done|]. simpl.
  destruct (s !! i) as [nd|] eqn:Ei; [|done].
  assert (Hacc : cache_of (set_cache s i None) j = None).
  { destruct (decide (i = j)) as [<-|Hij].
    - apply cache_of_set_cache_eq. eapply lookup_lt_Some; eauto.
    - rewrite cache_of_set_cache_ne by done. done. }
  revert Hacc. generalize (set_cache s i None).
  induction (dependent_nodes nd) as [|d l IHl]; intros acc Hacc; [done|].
  simpl. apply IHl. apply IH. done.
Qed.

(** Frame: nodes not reachable from [i] keep their cache. *)
Lemma clear_cash_frame f s i j :
  ~ reach s i j -> cache_of (clear_cash f s i) j = cache_of s j.
Proof.
  revert s i. induction f as [|f IH]; intros s i Hnr; [done|]. simpl.
  destruct (s !! i) as [nd|] eqn:Ei; [|done].
  assert (Hij : i <> j) by (intros <-; apply Hnr; apply Relation_Operators.rt1n_refl).
  rewrite <- (cache_of_set_cache_ne s i j None Hij).
  assert (Hl : forall d, d ∈ dependent_nodes nd -> ~ reach s d j).
  { intros d Hd Hr. apply Hnr. eapply Relation_Operators.rt1n_trans; [|exact Hr].
    unfold dep_edge, deps_of. rewrite Ei. done. }
  assert (Hsh : shape (set_cache s i None) = shape s) by apply shape_set_cache.
  revert Hl Hsh. generalize (set_cache s i None).
  induction (dependent_nodes nd) as [|d l IHl]; intros acc Hl Hsh; [done|].
  simpl. rewrite IHl.
  - apply IH. intros Hr. apply (Hl d); [left|].
    apply (reach_shape acc); [done|exact Hr].
  - intros d' Hd'. apply Hl. right. done.
  - rewrite shape_clear_cash. done.
Qed.

(** Completeness: every node at the end of a dependent path shorter than
    the fuel is cleared. *)
Lemma clear_cash_path f s i k j :
  dpath s k i j -> k < f -> cache_of (clear_cash f s i) j = None.
Proof.
  revert s i k j. induction f as [|f IH]; intros s i k j Hp Hk; [lia|].
  revert Hk. destruct Hp as [i|k i d j Hid Hdp]; intros Hk; simpl.
  - destruct (s !! i) as [nd|] eqn:Ei; [|unfold cache_of; rewrite Ei; done].
    assert (Hacc : cache_of (set_cache s i None) i = None).
    { apply cache_of_set_cache_eq. eapply lookup_lt_Some; eauto. }
    revert Hacc. generalize (set_cache s i None).
    induction (dependent_nodes nd) as [|d l IHl]; intros acc Hacc; [done|].
    simpl. apply IHl. apply clear_cash_keeps_None. done.
  - unfold dep_edge, deps_of in Hid.
    destruct (s !! i) as [nd|] eqn:Ei; [|apply elem_of_nil in Hid; done].
    assert (Hsh : shape (set_cache s i None) = shape s) by apply shape_set_cache.
    revert Hid Hsh. generalize (set_cache s i None).
    induction (dependent_nodes nd) as [|d' l IHl]; intros acc Hd Hsh;
      [apply elem_of_nil in Hd; done|].
    simpl. apply elem_of_cons in Hd as [->|Hd].
    + assert (Hc : cache_of (clear_cash f acc d') j = None).
      { apply (IH acc d' k); [|lia]. apply (dpath_shape s); [done|exact Hdp]. }
      revert Hc. generalize (clear_cash f acc d').
      clear IHl. induction l as [|d'' l IHl]; intros acc' Hacc'; [done|].
      simpl. apply IHl. apply clear_cash_keeps_None. done.
    + apply IHl; [done|]. rewrite shape_clear_cash. done.
Qed.

(** On a well-formed arena dependent paths go up in index. *)
Lemma dpath_bound s k i j :
  wf s -> dpath s k i j -> i + k <= j /\ (0 < k -> j < length s).
Proof.
  intros Hwf Hp. induction Hp as [i|k i d j Hid Hp' IHp]; [lia|].
  unfold dep_edge, deps_of in Hid. destruct (s !! i) as [nd|] eqn:Ei;
    [|apply elem_of_nil in Hid; done].
  destruct (Hwf i nd Ei) as [_ Hd]. specialize (Hd d Hid).
  destruct k; [inversion Hp'; subst|]; lia.
Qed.

Lemma reach_plus_dpath s i j : reach_plus s i j -> exists k, 0 < k /\ dpath s k i j.
Proof.
  induction 1 as [x y Hxy|x y z Hxy _ [k [Hk Hp]]].
  - exists 1. split; [lia|]. econstructor; [exact Hxy|constructor].
  - exists (S k). split; [lia|]. econstructor; eauto.
Qed.

(** ** Evaluation equations *)

Lemma traverse_cached f s i c :
  cache_of s i = Some c -> traverse (S f) i s = Ok c s.
Proof.
  unfold cache_of. intros Hc. simpl. unfold bind, node_at.
  destruct (s !! i) as [nd|]; [|discriminate]. rewrite Hc. done.
Qed.

Lemma compute_fuel f s i : wf s -> i < f -> i < length s ->
  traverse f i s = compute i s.
Proof. intros Hwf Hf Hl. unfold compute. apply traverse_fuel; done. Qed.

Lemma fills_compute s i : fills s (final (compute i s)).
Proof. apply fills_final_traverse. Qed.

Lemma compute_Ok_fills s i v s' : compute i s = Ok v s' -> fills s s'.
Proof. intros E. pose proof (fills_compute s i) as K. rewrite E in K. done. Qed.

Lemma wf_lookup_operand s n nd o :
  wf s -> s !! n = Some nd -> o ∈ operands (op_type nd) -> o < n /\ o < length s.
Proof.
  intros Hwf En Ho. pose proof (lookup_lt_Some _ _ _ En).
  pose proof (wf_operands _ _ _ Hwf En o Ho). lia.
Qed.

(** The one-step equation of [compute] at an operator node with an empty
    cache: operands are computed in the order of the Rust code, each with
    the arena left by the previous one. *)
Lemma compute_operator_eq s n nd :
  wf s -> s !! n = Some nd -> cache nd = None ->
  (forall a b, op_type nd = Add a b -> compute n s =
     (let* x := compute a in let* y := compute b in
      let res := f32_add x y in let* _ := put_cache n (Some res) in ret res) s) /\
  (forall a b, op_type nd = Mul a b -> compute n s =
     (let* x := compute a in let* y := compute b in
      let res := f32_mul x y in let* _ := put_cache n (Some res) in ret res) s) /\
  (forall a, op_type nd = Sin a -> compute n s =
     (let* x := compute a in
      let res := f32_sin x in let* _ := put_cache n (Some res) in ret res) s) /\
  (forall b e, op_type nd = PowF32 b e -> compute n s =
     (let* x := compute b in let* y := compute e in
      let res := f32_powf x y in let* _ := put_cache n (Some res) in ret res) s).
Proof.
  intros Hwf En Ec.
  pose proof (lookup_lt_Some _ _ _ En) as Hn.
  pose proof (fun o => wf_lookup_operand s n nd o Hwf En) as Hop.
  assert (Hstep : forall L, length s = S L ->
            compute n s = match op_type nd with
                          | Input _ => compute n s
                          | Add a b => (let* x := traverse L a in let* y := traverse L b in
                              let res := f32_add x y in let* _ := put_cache n (Some res) in ret res) s
                          | Mul a b => (let* x := traverse L a in let* y := traverse L b in
                              let res := f32_mul x y in let* _ := put_cache n (Some res) in ret res) s
                          | Sin a => (let* x := traverse L a in
                              let res := f32_sin x in let* _ := put_cache n (Some res) in ret res) s
                          | PowF32 b e => (let* x := traverse L b in let* y := traverse L e in
                              let res := f32_powf x y in let* _ := put_cache n (Some res) in ret res) s
                          end).
  { intros L HL. destruct (op_type nd) eqn:Eop; [done| | | |];
    unfold compute at 1; rewrite HL; simpl; unfold bind at 1, node_at; rewrite En, Ec, Eop;
    done. }
  destruct (length s) as [|L] eqn:HL; [lia|].
  specialize (Hstep L eq_refl).
  (* replace the fuel [L] of the recursive calls by [compute] *)
  assert (Hcall : forall o s1, o ∈ operands (op_type nd) -> fills s s1 ->
                  traverse L o s1 = compute o s1).
  { intros o s1 Ho Hs1. destruct (Hop o Ho) as [Ho1 Ho2].
    pose proof (fills_length _ _ Hs1) as Hl1.
    apply compute_fuel; [apply (fills_wf s); done| lia | lia]. }
  repeat split; intros ? ? Eop || intros ? Eop; rewrite Hstep, Eop; rewrite Eop in Hcall;
    unfold bind;
    rewrite (Hcall _ s) by (set_solver || apply fills_refl);
    match goal with |- context [compute ?o s] =>
      destruct (compute o s) as [x s1|] eqn:E1 end; try done;
    try (rewrite (Hcall _ s1) by (set_solver || (eapply compute_Ok_fills; eassumption)));
    done.
Qed.

(** ** [set] *)

Lemma shape_set s i v : shape (set s i v) = shape s.
Proof.
  unfold set. destruct (s !! i) as [nd|]; [|done].
  destruct (op_type nd); try done.
  rewrite shape_set_cache, shape_clear_cash. done.
Qed.

Lemma wf_set s i v : wf s -> wf (set s i v).
Proof. apply wf_shape. symmetry. apply shape_set. Qed.

Lemma cache_of_set_self s i nd name v :
  s !! i = Some nd -> op_type nd = Input name -> cache_of (set s i v) i = Some v.
Proof.
  intros Ei Eop. unfold set. rewrite Ei, Eop.
  apply cache_of_set_cache_eq. rewrite length_clear_cash.
  eapply lookup_lt_Some; eauto.
Qed.

(** ** Claims about [compute] *)

(** C1. At an operator node whose cache is empty, [compute] returns the
    operator applied to the values computed for its operands ([Add]: sum,
    [Mul]: product, [PowF32]: [powf] of base and exponent, [Sin]: sine), the
    operands being computed in the code's order, and writes that result into
    the node's cache before returning. *)
Theorem compute_operator_empty_cache s n nd :
  wf s -> s !! n = Some nd -> cache nd = None ->
  (forall a b, op_type nd = Add a b -> compute n s =
     (let* x := compute a in let* y := compute b in
      let res := f32_add x y in let* _ := put_cache n (Some res) in ret res) s) /\
  (forall a b, op_type nd = Mul a b -> compute n s =
     (let* x := compute a in let* y := compute b in
      let res := f32_mul x y in let* _ := put_cache n (Some res) in ret res) s) /\
  (forall a, op_type nd = Sin a -> compute n s =
     (let* x := compute a in
      let res := f32_sin x in let* _ := put_cache n (Some res) in ret res) s) /\
  (forall b e, op_type nd = PowF32 b e -> compute n s =
     (let* x := compute b in let* y := compute e in
      let res := f32_powf x y in let* _ := put_cache n (Some res) in ret res) s).
Proof. apply compute_operator_eq. Qed.

(** C3. Memoization: after a call of [compute] that returned [v], a second
    call returns the same [v] and leaves the arena as it is; it makes no
    recursive call, since it already succeeds with fuel 1, where any
    recursive [traverse] would run out of fuel. *)
Theorem compute_memoized s n v s' :
  compute n s = Ok v s' ->
  compute n s' = Ok v s' /\ traverse 1 n s' = Ok v s'.
Proof.
  intros E. pose proof (traverse_caches (length s) n s) as Hc.
  unfold compute in E. rewrite E in Hc.
  assert (Hn : n < length s').
  { unfold cache_of in Hc. destruct (s' !! n) eqn:E'; [|discriminate].
    eapply lookup_lt_Some; eauto. }
  split; [|apply traverse_cached; done].
  unfold compute. destruct (length s') as [|L]; [lia|].
  apply traverse_cached. done.
Qed.

(** C10. [compute] only writes caches: whether it returns or panics, every
    node keeps its operation and dependents list, and every cache it changes
    goes from empty to present.  On a node whose cache is present it returns
    that value and changes nothing. *)
Theorem compute_frame s n :
  (let s' := final (compute n s) in
   shape s' = shape s /\
   forall j, cache_of s' j = cache_of s j \/
             (cache_of s j = None /\ exists v, cache_of s' j = Some v)) /\
  (forall c, cache_of s n = Some c -> compute n s = Ok c s).
Proof.
  split; [apply fills_compute|].
  intros c Hc. unfold compute.
  assert (Hn : n < length s).
  { unfold cache_of in Hc. destruct (s !! n) eqn:E'; [|discriminate].
    eapply lookup_lt_Some; eauto. }
  destruct (length s) as [|L]; [lia|]. apply traverse_cached. done.
Qed.

(** C4. Reaching an [Input] node with an empty cache is a panic
    ([Option::unwrap] on [None]), not a default value; and the panic of an
    operand aborts the evaluation of the node that asked for it. *)
Theorem compute_unset_input_panics s n nd :
  wf s -> s !! n = Some nd -> cache nd = None ->
  match op_type nd with
  | Input _ => compute n s = Err UnwrapNone s
  | op =>
    match operands op with
    | [a] => forall e s1, compute a s = Err e s1 -> compute n s = Err e s1
    | [a; b] =>
      (forall e s1, compute a s = Err e s1 -> compute n s = Err e s1) /\
      (forall x s1 e s2, compute a s = Ok x s1 -> compute b s1 = Err e s2 ->
                         compute n s = Err e s2)
    | _ => True
    end
  end.
Proof.
  intros Hwf En Ec.
  destruct (compute_operator_eq s n nd Hwf En Ec) as (HA & HM & HS & HP).
  destruct (op_type nd) as [name|a b|a b|a|a b] eqn:Eop; simpl.
  - unfold compute. pose proof (lookup_lt_Some _ _ _ En).
    destruct (length s) as [|L]; [lia|]. simpl. unfold bind, node_at.
    rewrite En, Ec, Eop. done.
  - split; intros *; rewrite (HA a b eq_refl); unfold bind; intros E1;
      [rewrite E1; done|intros E2; rewrite E1, E2; done].
  - split; intros *; rewrite (HM a b eq_refl); unfold bind; intros E1;
      [rewrite E1; done|intros E2; rewrite E1, E2; done].
  - intros *; rewrite (HS a eq_refl); unfold bind; intros E1; rewrite E1; done.
  - split; intros *; rewrite (HP a b eq_refl); unfold bind; intros E1;
      [rewrite E1; done|intros E2; rewrite E1, E2; done].
Qed.

(** ** Claims about [set] *)

(** C2. On a well-formed arena, [set] on an [Input] node [i] leaves [v] in
    the cache of [i] and an empty cache on every node reachable from [i]
    through one or more dependent edges. *)
Theorem set_invalidates s i nd name v :
  wf s -> s !! i = Some nd -> op_type nd = Input name ->
  cache_of (set s i v) i = Some v /\
  forall j, reach_plus s i j -> cache_of (set s i v) j = None.
Proof.
  intros Hwf Ei Eop. split; [eapply cache_of_set_self; eauto|].
  intros j Hr. destruct (reach_plus_dpath _ _ _ Hr) as (k & Hk & Hp).
  destruct (dpath_bound _ _ _ _ Hwf Hp) as [Hle Hlt]. specialize (Hlt Hk).
  unfold set. rewrite Ei, Eop.
  rewrite cache_of_set_cache_ne by lia.
  apply (clear_cash_path _ _ _ k); [done|lia].
Qed.

(** C7. [set] leaves the cache of every node not reachable from the mutated
    node through dependent edges as it was. *)
Theorem set_frame s i v j :
  ~ reach s i j -> cache_of (set s i v) j = cache_of s j.
Proof.
  intros Hnr. unfold set. destruct (s !! i) as [nd|]; [|done].
  destruct (op_type nd); try done.
  assert (Hij : i <> j) by (intros <-; apply Hnr; apply Relation_Operators.rt1n_refl).
  rewrite cache_of_set_cache_ne by done. apply clear_cash_frame. done.
Qed.

(** C5 (as the code has it). [set] on a node that is not an [Input] is
    silently ignored: it returns normally and the arena is unchanged. *)
Theorem set_non_input_ignored s i nd v :
  s !! i = Some nd -> (forall name, op_type nd <> Input name) -> set s i v = s.
Proof.
  intros Ei Hop. unfold set. rewrite Ei.
  destruct (op_type nd) as [name| | | |]; [|done..].
  exfalso. apply (Hop name). done.
Qed.

Lemma wfb_wf s : wfb s = true -> wf s.
Proof.
  unfold wfb. intros Hb i nd Ei.
  pose proof (lookup_lt_Some _ _ _ Ei) as Hi.
  rewrite forallb_forall in Hb.
  specialize (Hb i (proj2 (in_seq _ _ _) (conj (Nat.le_0_l i) Hi))).
  rewrite Ei in Hb. apply andb_true_iff in Hb as [Ho Hd].
  rewrite forallb_forall in Ho, Hd. split.
  - intros o Hin. apply list_elem_of_In in Hin. apply Nat.ltb_lt. auto.
  - intros d Hin. apply list_elem_of_In in Hin.
    pose proof (Hd d Hin) as Hdd. apply andb_true_iff in Hdd as [H1 H2].
    apply Nat.ltb_lt in H1, H2. lia.
Qed.

Lemma reach_le s i j : wf s -> reach s i j -> i <= j.
Proof.
  intros Hwf Hr. induction Hr as [|x y z Hxy _ IHr]; [lia|].
  unfold dep_edge, deps_of in Hxy. destruct (s !! x) as [nd|] eqn:Ex;
    [|apply elem_of_nil in Hxy; done].
  destruct (Hwf x nd Ex) as [_ Hd]. specialize (Hd y Hxy). lia.
Qed.

(** ** Locality of evaluation *)

(** [traverse n] only writes caches of nodes of index at most [n], and the
    cache of [n] itself only when it succeeds. *)
Lemma traverse_local f n s : wf s ->
  match traverse f n s with
  | Ok _ s' => forall j, n < j -> cache_of s' j = cache_of s j
  | Err _ s' => forall j, n <= j -> cache_of s' j = cache_of s j
  end.
Proof.
  revert n s; induction f as [|f IH]; intros n s Hwf; [done|].
  simpl. unfold bind, node_at. destruct (s !! n) as [nd|] eqn:En; [|done].
  destruct (cache nd); [done|].
  pose proof (fun o => wf_lookup_operand s n nd o Hwf En) as Hop.
  destruct (op_type nd) as [name|a b|a b|a|a b]; simpl in Hop; simpl; [done| | | |].
  all: assert (Ha : a < n) by (apply Hop; constructor).
  all: pose proof (IH a s Hwf) as Ka; pose proof (fills_final_traverse f a s) as Fa.
  all: destruct (traverse f a s) as [x s1|e s1]; simpl in Fa;
       [|intros j Hj; rewrite Ka by lia; done].
  (* [Sin]: one operand *)
  3:{ intros j Hj. rewrite cache_of_set_cache_ne by lia. rewrite Ka by lia. done. }
  all: assert (Hb : b < n) by (apply Hop; right; constructor).
  all: pose proof (IH b s1 (fills_wf _ _ Fa Hwf)) as Kb.
  all: destruct (traverse f b s1) as [y s2|e s2]; simpl; intros j Hj;
       [rewrite cache_of_set_cache_ne by lia|]; rewrite Kb, Ka by lia; done.
Qed.

(** C6 (as the code has it).  A panic does not roll the arena back.  What a
    panicking [compute] leaves changed is only caches that were empty and are
    now present; operations, dependents lists and present caches are
    untouched, and the queried node's cache is as before the call.  And the
    writes made before the panic stay: when the queried node is a binary
    operator with an empty cache whose first operand evaluated to [x] in the
    arena [s1], the panic comes from the second operand run on [s1], and the
    final arena keeps [x] in the first operand's cache and every cache
    present in [s1]. *)
Theorem compute_panic_keeps_fills s n e s' :
  wf s -> compute n s = Err e s' ->
  shape s' = shape s /\
  (forall j, cache_of s' j = cache_of s j \/
             (cache_of s j = None /\ exists v, cache_of s' j = Some v)) /\
  cache_of s' n = cache_of s n /\
  (forall nd a b x s1,
     s !! n = Some nd -> cache nd = None -> operands (op_type nd) = [a; b] ->
     compute a s = Ok x s1 ->
     compute b s1 = Err e s' /\ cache_of s' a = Some x /\
     (forall j w, cache_of s1 j = Some w -> cache_of s' j = Some w)).
Proof.
  intros Hwf E. pose proof (fills_compute s n) as [Hs Hc]. rewrite E in Hs, Hc.
  split; [done|]. split; [done|]. split.
  { pose proof (traverse_local (length s) n s Hwf) as K. unfold compute in E.
    rewrite E in K. apply K. lia. }
  intros nd a b x s1 En Ec Hops Ea.
  destruct (compute_operator_eq s n nd Hwf En Ec) as (HA & HM & _ & HP).
  assert (Eb : compute b s1 = Err e s').
  { destruct (op_type nd) as [|a' b'|a' b'|a'|a' b'] eqn:Eop; simpl in Hops;
      try discriminate; injection Hops as -> ->;
      [rewrite (HA a b eq_refl) in E|rewrite (HM a b eq_refl) in E
      |rewrite (HP a b eq_refl) in E];
      unfold bind in E; rewrite Ea in E;
      destruct (compute b s1) as [y s2|e2 s2]; unfold put_cache, ret in E; simpl in E; congruence. }
  assert (Hx : cache_of s1 a = Some x).
  { pose proof (traverse_caches (length s) a s) as K. unfold compute in Ea.
    rewrite Ea in K. exact K. }
  assert (Hkeep : forall j w, cache_of s1 j = Some w -> cache_of s' j = Some w).
  { pose proof (fills_compute s1 b) as [_ Hf]. rewrite Eb in Hf. cbn [final] in Hf.
    intros j w Hj. destruct (Hf j) as [->|[Hn _]]; congruence. }
  split; [done|]. split; [apply Hkeep; done|done].
Qed.

(** ** Construction *)

Lemma lookup_add_dep_ne s n o j :
  o <> j -> add_dependent_node n o s !! j = s !! j.
Proof.
  intros Hoj. unfold add_dependent_node. destruct (s !! o); [|done].
  apply list_lookup_insert_ne. done.
Qed.

Lemma lookup_add_dep_eq s n o nd :
  s !! o = Some nd ->
  add_dependent_node n o s !! o = Some (with_dependents nd (dependent_nodes nd ++ [n])).
Proof.
  intros Eo. unfold add_dependent_node. rewrite Eo.
  apply list_lookup_insert_eq. eapply lookup_lt_Some; eauto.
Qed.

Lemma cache_of_add_dep s n o j :
  cache_of (add_dependent_node n o s) j = cache_of s j.
Proof.
  destruct (decide (o = j)) as [<-|Hoj].
  - unfold cache_of at 2. destruct (s !! o) as [nd|] eqn:Eo.
    + unfold cache_of. rewrite (lookup_add_dep_eq _ _ _ _ Eo). done.
    + unfold cache_of, add_dependent_node. rewrite Eo, Eo. done.
  - unfold cache_of. rewrite lookup_add_dep_ne by done. done.
Qed.

Lemma length_add_dep s n o : length (add_dependent_node n o s) = length s.
Proof. unfold add_dependent_node. destruct (s !! o); [apply length_insert|done]. Qed.

(** [wf] is an invariant of the construction API. *)
Lemma wf_nil : wf ([] : state).
Proof. intros i nd Ei. rewrite lookup_nil in Ei. discriminate. Qed.

Lemma wf_new_node s op :
  wf s -> (forall o, o ∈ operands op -> o < length s) ->
  wf (s ++ [mk_node op [] None]).
Proof.
  intros Hwf Hop i nd Ei. rewrite length_app. simpl.
  apply lookup_snoc_Some in Ei as [[Hi Ei]|[-> <-]].
  - destruct (Hwf i nd Ei) as [H1 H2]. split; [done|].
    intros d Hd. specialize (H2 d Hd). lia.
  - split; [done|]. intros d Hd. apply elem_of_nil in Hd. done.
Qed.

Lemma wf_add_dep s n o : wf s -> o < n -> n < length s -> wf (add_dependent_node n o s).
Proof.
  intros Hwf Hon Hn i nd' Ei. rewrite length_add_dep.
  destruct (decide (o = i)) as [<-|Hoi].
  - unfold add_dependent_node in Ei. destruct (s !! o) as [nd|] eqn:Eo;
      [|apply (Hwf o nd' Ei)].
    rewrite list_lookup_insert_eq in Ei by (eapply lookup_lt_Some; eauto).
    injection Ei as <-. simpl. destruct (Hwf o nd Eo) as [H1 H2].
    split; [done|]. intros d Hd. apply elem_of_app in Hd as [Hd|Hd]; [auto|].
    apply list_elem_of_singleton in Hd. lia.
  - rewrite lookup_add_dep_ne in Ei by done. apply (Hwf i nd' Ei).
Qed.

Ltac wf_build :=
  repeat first [ apply wf_add_dep | apply wf_new_node ];
  rewrite ?length_add_dep, ?length_app; simpl;
  first [ done | lia
        | intros ? Ho; repeat (apply elem_of_cons in Ho as [->|Ho]);
          first [ lia | apply elem_of_nil in Ho; done ] ].

Lemma wf_create_input s val : wf s -> wf (create_input s val).2.
Proof. intros Hwf. apply wf_new_node; [done|]. intros o Ho. apply elem_of_nil in Ho. done. Qed.

Lemma wf_add s a b : wf s -> a < length s -> b < length s -> wf (add s a b).2.
Proof. intros Hwf Ha Hb. unfold add, new_node. simpl. wf_build. Qed.

Lemma wf_mul s a b : wf s -> a < length s -> b < length s -> wf (mul s a b).2.
Proof. intros Hwf Ha Hb. unfold mul, new_node. simpl. wf_build. Qed.

Lemma wf_pow_f32 s b e : wf s -> b < length s -> e < length s -> wf (pow_f32 s b e).2.
Proof. intros Hwf Hb He. unfold pow_f32, new_node. simpl. wf_build. Qed.

Lemma wf_sin s a : wf s -> a < length s -> wf (sin s a).2.
Proof. intros Hwf Ha. unfold sin, new_node. simpl. wf_build. Qed.

Lemma wf_compute s n : wf s -> wf (final (compute n s)).
Proof. apply fills_wf. apply fills_compute. Qed.

(** The node built by [mul s a b] on valid operands. *)
Lemma mul_lookup_new s a b :
  a < length s -> b < length s ->
  let '(m, s') := mul s a b in
  m = length s /\ length s' = S (length s) /\
  s' !! m = Some (mk_node (Mul a b) [] None) /\
  (forall j, j < length s -> cache_of s' j = cache_of s j) /\
  (forall j nd, s !! j = Some nd -> exists nd',
     s' !! j = Some nd' /\ op_type nd' = op_type nd).
Proof.
  intros Ha Hb. unfold mul, new_node.
  split; [done|]. split.
  { rewrite !length_add_dep, length_app. simpl. lia. }
  split.
  { rewrite !lookup_add_dep_ne by lia.
    apply list_lookup_middle. done. }
  split.
  { intros j Hj. rewrite !cache_of_add_dep. unfold cache_of.
    rewrite lookup_app_l by done. done. }
  intros j nd Ej.
  assert (E1 : (s ++ [mk_node (Mul a b) [] None]) !! j = Some nd)
    by (apply lookup_app_l_Some; done).
  set (s1 := s ++ _) in *.
  destruct (decide (a = j)) as [<-|Haj].
  - destruct (decide (b = a)) as [->|Hba].
    + rewrite (lookup_add_dep_eq _ _ _ _ (lookup_add_dep_eq _ _ _ _ E1)).
      eexists. split; [reflexivity|done].
    + rewrite lookup_add_dep_ne by done. rewrite (lookup_add_dep_eq _ _ _ _ E1).
      eexists. split; [reflexivity|done].
  - assert (E2 : add_dependent_node (length s) a s1 !! j = Some nd)
      by (rewrite lookup_add_dep_ne; done).
    destruct (decide (b = j)) as [<-|Hbj].
    + rewrite (lookup_add_dep_eq _ _ _ _ E2). eexists. split; [reflexivity|done].
    + rewrite lookup_add_dep_ne by done. eauto.
Qed.

(** A [Mul] node with an empty cache over operands with present caches. *)
Lemma compute_mul_cached s m nd a b va vb :
  s !! m = Some nd -> cache nd = None -> op_type nd = Mul a b ->
  cache_of s a = Some va -> cache_of s b = Some vb -> 2 <= length s ->
  compute m s = Ok (f32_mul va vb) (set_cache s m (Some (f32_mul va vb))).
Proof.
  intros Em Ec Eop Ha Hb Hl. unfold compute.
  destruct (length s) as [|[|L]]; [lia|lia|].
  remember (S L) as f eqn:Ef. simpl. unfold bind, node_at.
  rewrite Em, Ec, Eop. simpl. subst f.
  rewrite (traverse_cached _ _ _ _ Ha), (traverse_cached _ _ _ _ Hb). done.
Qed.

(** C8. Sharing: [mul x x] on an input [x] computes [x * x], whether the
    value of [x] is set before or after the product node is built; [x]
    itself computes to the value set. *)
Theorem mul_self_compute s x nd name v :
  s !! x = Some nd -> op_type nd = Input name ->
  (let s1 := set s x v in
   let '(m, s2) := mul s1 x x in
   compute x s2 = Ok v s2 /\
   compute m s2 = Ok (f32_mul v v) (set_cache s2 m (Some (f32_mul v v)))) /\
  (let '(m, s1) := mul s x x in
   let s2 := set s1 x v in
   compute x s2 = Ok v s2 /\
   compute m s2 = Ok (f32_mul v v) (set_cache s2 m (Some (f32_mul v v)))).
Proof.
  intros Ex Eop. pose proof (lookup_lt_Some _ _ _ Ex) as Hx.
  split.
  - cbv zeta. pose proof (cache_of_set_self s x nd name v Ex Eop) as Hv.
    assert (Hl : length (set s x v) = length s)
      by (apply shape_length; apply shape_set).
    pose proof (mul_lookup_new (set s x v) x x) as K.
    destruct (mul (set s x v) x x) as [m s2].
    destruct K as (-> & Hl2 & Em & Hc & _); [lia|lia|].
    assert (Hv2 : cache_of s2 x = Some v) by (rewrite Hc by lia; done).
    split.
    + unfold compute. rewrite Hl2. apply traverse_cached. done.
    + eapply (compute_mul_cached _ _ _ _ _ _ _ Em); try done; lia.
  - pose proof (mul_lookup_new s x x Hx Hx) as K.
    destruct (mul s x x) as [m s1].
    destruct K as (-> & Hl1 & Em & _ & Hop).
    destruct (Hop x nd Ex) as (nd' & Ex' & Eop'). rewrite Eop in Eop'.
    pose proof (cache_of_set_self s1 x nd' name v Ex' Eop') as Hv.
    pose proof (shape_set s1 x v) as Hsh.
    destruct (shape_lookup _ _ _ _ (eq_sym Hsh) Em) as (ndm & Em2 & Eopm & _).
    assert (Hcm : cache ndm = None).
    { assert (cache_of (set s1 x v) (length s) = None) as C.
      { unfold set. rewrite Ex', Eop'.
        rewrite cache_of_set_cache_ne by lia.
        apply clear_cash_keeps_None. unfold cache_of. rewrite Em. done. }
      unfold cache_of in C. rewrite Em2 in C. done. }
    assert (Hl2 : length (set s1 x v) = S (length s))
      by (rewrite <- Hl1; apply shape_length; apply shape_set).
    split.
    + unfold compute. rewrite Hl2. apply traverse_cached. done.
    + eapply (compute_mul_cached _ _ _ _ _ _ _ Em2); try done; lia.
Qed.

(** ** Reference semantics *)

Lemma denot_fuel f f' s i : wf s -> i < f -> i < f' -> denot f s i = denot f' s i.
Proof.
  revert f' i. induction f as [|f IH]; intros f' i Hwf Hf Hf'; [lia|].
  destruct f' as [|f']; [lia|]. simpl.
  destruct (s !! i) as [nd|] eqn:Ei; [|done].
  pose proof (wf_operands _ _ _ Hwf Ei) as Hop.
  destruct (op_type nd) as [|a b|a b|a|a b]; simpl in Hop; [done| | | |];
  rewrite (IH f' a) by (done || (pose proof (Hop a ltac:(constructor)); lia));
  try rewrite (IH f' b) by (done || (pose proof (Hop b ltac:(right; constructor)); lia));
  done.
Qed.

Lemma value_denot f s i : wf s -> i < f -> denot f s i = value s i.
Proof. intros Hwf Hf. apply denot_fuel; [done|done|lia]. Qed.

Lemma oreach_step s n nd o k :
  s !! n = Some nd -> o ∈ operands (op_type nd) -> oreach s o k -> oreach s n k.
Proof. intros En Ho Hr. eapply Relation_Operators.rt1n_trans; [|exact Hr]. exists nd. done. Qed.

(** The reference value at [n] only reads the operations of the arena and the
    caches of the input nodes below [n]. *)
Lemma denot_local f s s' n :
  shape s = shape s' ->
  (forall k nd name, oreach s n k -> s !! k = Some nd -> op_type nd = Input name ->
                     cache_of s' k = cache_of s k) ->
  denot f s' n = denot f s n.
Proof.
  revert n. induction f as [|f IH]; intros n Hs Hin; [done|]. simpl.
  destruct (s !! n) as [nd|] eqn:En.
  2:{ rewrite (shape_lookup_None _ _ _ Hs En). done. }
  destruct (shape_lookup _ _ _ _ Hs En) as (nd' & En' & Hop & _). rewrite En', Hop.
  destruct (op_type nd) as [name|a b|a b|a|a b] eqn:Eop.
  1:{ pose proof (Hin n nd name (Relation_Operators.rt1n_refl _ _ _) En Eop) as K.
    unfold cache_of in K. rewrite En, En' in K. done. }
  all: rewrite (IH a) by (done || (intros k ndk nm Hr; apply Hin;
         eapply oreach_step; [exact En| rewrite Eop; constructor | exact Hr])).
  3: done.
  all: rewrite (IH b) by (done || (intros k ndk nm Hr; apply Hin;
         eapply oreach_step; [exact En| rewrite Eop; right; constructor | exact Hr])).
  all: done.
Qed.

Lemma value_keep s s' j :
  shape s = shape s' -> inputs_same s s' -> value s' j = value s j.
Proof. intros Hs Hin. apply denot_local; [done|]. intros k nd name _. apply Hin. Qed.

Lemma denot_extends f s s' n w :
  extends s s' -> denot f s n = Some w -> denot f s' n = Some w.
Proof.
  revert n w. induction f as [|f IH]; intros n w Hx Hd; [done|]. simpl in *.
  destruct (s !! n) as [nd|] eqn:En; [|discriminate].
  destruct (Hx n nd En) as (nd' & -> & Hop & Hc). rewrite Hop.
  destruct (op_type nd); [congruence| | | |];
  repeat match goal with
  | H : context [match denot f s ?a with _ => _ end] |- _ =>
      let E := fresh "E" in destruct (denot f s a) eqn:E; [|discriminate]
  end;
  repeat match goal with
  | E : denot f s ?a = Some _ |- _ => rewrite (IH _ _ Hx E); clear E
  end; done.
Qed.

(** ** Evaluation agrees with the reference semantics *)

Lemma inputs_same_refl s : inputs_same s s.
Proof. intros k nd name _ _. done. Qed.

Lemma traverse_inputs f n s : inputs_same s (final (traverse f n s)).
Proof.
  revert n s. induction f as [|f IH]; intros n s; [apply inputs_same_refl|].
  simpl. unfold bind, node_at.
  destruct (s !! n) as [nd|] eqn:En; [|apply inputs_same_refl].
  destruct (cache nd); [apply inputs_same_refl|].
  assert (Hput : forall s2 c, shape s2 = shape s -> inputs_same s s2 ->
            (forall name, op_type nd <> Input name) ->
            inputs_same s (set_cache s2 n c)).
  { intros s2 c Hs2 Hin Hni k ndk name Ek Eop.
    rewrite cache_of_set_cache_ne; [apply (Hin k ndk name Ek Eop)|].
    intros <-. rewrite En in Ek. injection Ek as <-. apply (Hni name Eop). }
  assert (Htr : forall o s1, shape s1 = shape s -> inputs_same s s1 ->
            shape (final (traverse f o s1)) = shape s /\
            inputs_same s (final (traverse f o s1))).
  { intros o s1 Hs1 Hin1. pose proof (fills_final_traverse f o s1) as [Hsh _].
    split; [congruence|]. intros k ndk name Ek Eop.
    destruct (shape_lookup _ _ _ _ (eq_sym Hs1) Ek) as (nd1 & Ek1 & Eop1 & _).
    rewrite (IH o s1 k nd1 name Ek1) by congruence. apply (Hin1 k ndk name Ek Eop). }
  destruct (op_type nd) as [name|a b|a b|a|a b] eqn:Eop; simpl;
    [apply inputs_same_refl| | | |].
  all: assert (Hni : forall nm, op_type nd <> Input nm) by (rewrite Eop; discriminate).
  all: destruct (Htr a s eq_refl (inputs_same_refl s)) as [Hs1 Hin1].
  all: destruct (traverse f a s) as [x s1|e s1]; simpl in *; [|done].
  3: apply Hput; done.
  all: destruct (Htr b s1 Hs1 Hin1) as [Hs2 Hin2].
  all: destruct (traverse f b s1) as [y s2|e s2]; simpl in *; [|done].
  all: apply Hput; done.
Qed.

Lemma inputs_same_trans s s1 s2 :
  shape s = shape s1 -> inputs_same s s1 -> inputs_same s1 s2 -> inputs_same s s2.
Proof.
  intros Hs H1 H2 k nd name Ek Eop.
  destruct (shape_lookup _ _ _ _ Hs Ek) as (nd1 & Ek1 & Eop1 & _).
  rewrite (H2 k nd1 name Ek1) by congruence. apply (H1 k nd name Ek Eop).
Qed.

Lemma value_unfold s n nd :
  wf s -> s !! n = Some nd ->
  value s n =
  match op_type nd with
  | Input _ => cache nd
  | Add a b => match value s a, value s b with
               | Some x, Some y => Some (f32_add x y) | _, _ => None end
  | Mul a b => match value s a, value s b with
               | Some x, Some y => Some (f32_mul x y) | _, _ => None end
  | Sin a => match value s a with Some x => Some (f32_sin x) | None => None end
  | PowF32 b e => match value s b, value s e with
                  | Some x, Some y => Some (f32_powf x y) | _, _ => None end
  end.
Proof.
  intros Hwf En. unfold value at 1. simpl. rewrite En.
  pose proof (wf_operands _ _ _ Hwf En) as Hop.
  destruct (op_type nd) as [|a b|a b|a|a b]; simpl in Hop; [done| | | |];
  rewrite (value_denot n s a) by (done || (apply Hop; constructor));
  try rewrite (value_denot n s b) by (done || (apply Hop; right; constructor));
  done.
Qed.

Lemma coherent_put s s2 n nd r :
  coherent s2 -> shape s2 = shape s -> s !! n = Some nd ->
  (forall nm, op_type nd <> Input nm) -> value s2 n = Some r ->
  coherent (set_cache s2 n (Some r)).
Proof.
  intros Co Hs En Hni Hv j w Hj.
  destruct (shape_lookup _ _ _ _ (eq_sym Hs) En) as (nd2 & En2 & Eop2 & _).
  rewrite value_keep with (s := s2).
  - destruct (decide (n = j)) as [<-|Hnj].
    + rewrite cache_of_set_cache_eq in Hj by (eapply lookup_lt_Some; eauto).
      congruence.
    + rewrite cache_of_set_cache_ne in Hj by done. apply Co. done.
  - rewrite shape_set_cache. done.
  - intros k ndk nm Ek Eop. rewrite cache_of_set_cache_ne; [done|].
    intros <-. rewrite En2 in Ek. injection Ek as <-. apply (Hni nm). congruence.
Qed.

Lemma traverse_correct f n s :
  wf s -> coherent s ->
  match traverse f n s with
  | Ok v s' => value s n = Some v /\ coherent s'
  | Err _ s' => coherent s'
  end.
Proof.
  revert n s. induction f as [|f IH]; intros n s Hwf Hco; [done|].
  simpl. unfold bind, node_at.
  destruct (s !! n) as [nd|] eqn:En; [|done].
  destruct (cache nd) as [c|] eqn:Ec.
  { split; [|done]. apply Hco. unfold cache_of. rewrite En. done. }
  pose proof (value_unfold s n nd Hwf En) as Hval.
  destruct (op_type nd) as [name|a b|a b|a|a b] eqn:Eop; simpl; [done| | | |].
  all: assert (Hni : forall nm, op_type nd <> Input nm) by (rewrite Eop; discriminate).
  all: pose proof (IH a s Hwf Hco) as Ka.
  all: pose proof (fills_final_traverse f a s) as Fa.
  all: pose proof (traverse_inputs f a s) as Ia.
  all: destruct (traverse f a s) as [x s1|e s1]; simpl in Fa, Ia, Ka; [|done].
  all: destruct Ka as [Va Co1].
  all: assert (Wf1 : wf s1) by (apply (fills_wf s); done).
  all: destruct Fa as [Hs1 _].
  (* [Sin] *)
  3:{ rewrite Va in Hval. split; [done|].
      apply (coherent_put s s1 n nd); try done.
      rewrite (value_keep s s1) by done. done. }
  all: pose proof (IH b s1 Wf1 Co1) as Kb.
  all: pose proof (fills_final_traverse f b s1) as Fb.
  all: pose proof (traverse_inputs f b s1) as Ib.
  all: destruct (traverse f b s1) as [y s2|e s2]; simpl in Fb, Ib, Kb; [|done].
  all: destruct Kb as [Vb Co2]; destruct Fb as [Hs2 _].
  all: rewrite (value_keep s s1) in Vb by done.
  all: rewrite Va, Vb in Hval.
  all: split; [done|].
  all: apply (coherent_put s s2 n nd); try done; [congruence|].
  all: rewrite (value_keep s s2); [done|congruence|].
  all: apply (inputs_same_trans s s1 s2); done.
Qed.

(** With every input set, [traverse] with enough fuel never panics. *)
Lemma traverse_total f n s :
  wf s -> inputs_set s -> n < length s -> n < f ->
  exists v s', traverse f n s = Ok v s'.
Proof.
  revert n s. induction f as [|f IH]; intros n s Hwf Hin Hn Hf; [lia|].
  simpl. unfold bind, node_at.
  destruct (s !! n) as [nd|] eqn:En; [|apply lookup_ge_None in En; lia].
  destruct (cache nd) as [c|] eqn:Ec; [eauto|].
  pose proof (fun o => wf_lookup_operand s n nd o Hwf En) as Hop.
  assert (Hkeep : forall s1, fills s s1 -> wf s1 /\ inputs_set s1 /\ length s1 = length s).
  { intros s1 Hf1. split; [apply (fills_wf s); done|].
    split; [|apply fills_length; done].
    destruct Hf1 as [Hs1 Hc1]. intros k nd1 name Ek Eop Hnone.
    destruct (shape_lookup _ _ _ _ Hs1 Ek) as (nd0 & Ek0 & Eop0 & _).
    apply (Hin k nd0 name Ek0); [congruence|].
    rewrite <- (lookup_cache_of _ _ _ Ek), <- (lookup_cache_of _ _ _ Ek0) in *.
    destruct (Hc1 k) as [E|[_ [v E]]]; congruence. }
  destruct (op_type nd) as [name|a b|a b|a|a b] eqn:Eop; simpl in Hop |- *.
  { exfalso. apply (Hin n nd name En Eop Ec). }
  all: destruct (Hop a ltac:(constructor)) as [Ha1 Ha2].
  all: destruct (IH a s Hwf Hin ltac:(lia) ltac:(lia)) as (x & s1 & Ea); rewrite Ea.
  all: pose proof (fills_final_traverse f a s) as Fa; rewrite Ea in Fa; simpl in Fa.
  all: destruct (Hkeep s1 Fa) as (Wf1 & In1 & L1).
  3: eauto.
  all: destruct (Hop b ltac:(right; constructor)) as [Hb1 Hb2].
  all: destruct (IH b s1 Wf1 In1 ltac:(lia) ltac:(lia)) as (y & s2 & Eb); rewrite Eb.
  all: eauto.
Qed.

(** ** Locality: [traverse n] only writes caches of the operand cone of [n] *)

Lemma oreach_shape s s' a b : shape s = shape s' -> oreach s a b -> oreach s' a b.
Proof.
  intros Hs Hr. induction Hr as [x|x y z [nd [Ex Hy]] _ IHr].
  - apply Relation_Operators.rt1n_refl.
  - destruct (shape_lookup _ _ _ _ Hs Ex) as (nd' & Ex' & Eop & _).
    eapply Relation_Operators.rt1n_trans; [|exact IHr].
    exists nd'. split; [done|]. rewrite Eop. done.
Qed.

Lemma traverse_cone f n s j :
  ~ oreach s n j -> cache_of (final (traverse f n s)) j = cache_of s j.
Proof.
  revert n s. induction f as [|f IH]; intros n s Hnr; [done|].
  simpl. unfold bind, node_at.
  destruct (s !! n) as [nd|] eqn:En; [|done].
  destruct (cache nd); [done|].
  assert (Hnj : n <> j) by (intros <-; apply Hnr; apply Relation_Operators.rt1n_refl).
  assert (Htr : forall o s1, o ∈ operands (op_type nd) -> shape s1 = shape s ->
            cache_of s1 j = cache_of s j ->
            shape (final (traverse f o s1)) = shape s /\
            cache_of (final (traverse f o s1)) j = cache_of s j).
  { intros o s1 Ho Hs1 Hc1. pose proof (fills_final_traverse f o s1) as [Hsh _].
    split; [congruence|]. rewrite IH; [done|].
    intros Hr. apply Hnr. eapply oreach_step; [exact En|exact Ho|].
    apply (oreach_shape s1); [done|exact Hr]. }
  destruct (op_type nd) as [name|a b|a b|a|a b] eqn:Eop; simpl; [done| | | |].
  all: destruct (Htr a s ltac:(constructor) eq_refl eq_refl) as [Hs1 Hc1].
  all: destruct (traverse f a s) as [x s1|e s1]; simpl in *; [|done].
  3: rewrite cache_of_set_cache_ne; done.
  all: destruct (Htr b s1 ltac:(right; constructor) Hs1 Hc1) as [Hs2 Hc2].
  all: destruct (traverse f b s1) as [y s2|e s2]; simpl in *; [|done].
  all: rewrite cache_of_set_cache_ne; done.
Qed.

(** ** Reachability *)

Lemma reach_snoc s a b c : reach s a b -> dep_edge s b c -> reach s a c.
Proof.
  intros Hr. revert c. induction Hr as [x|x y z Hxy _ IHr]; intros c Hc.
  - eapply Relation_Operators.rt1n_trans; [exact Hc|apply Relation_Operators.rt1n_refl].
  - eapply Relation_Operators.rt1n_trans; [exact Hxy|]. apply IHr. done.
Qed.

Lemma reach_trans s a b c : reach s a b -> reach s b c -> reach s a c.
Proof.
  intros Hab Hbc. induction Hab as [x|x y z Hxy _ IHr]; [done|].
  eapply Relation_Operators.rt1n_trans; [exact Hxy|]. apply IHr. done.
Qed.

Lemma reach_neq_plus s a b : reach s a b -> a <> b -> reach_plus s a b.
Proof.
  intros Hr Hab.
  assert (K : a = b \/ reach_plus s a b); [|destruct K; done].
  clear Hab. induction Hr as [x|x y z Hxy _ IHr]; [left; done|right].
  destruct IHr as [<-|IHr].
  - apply Relation_Operators.t1n_step. done.
  - eapply Relation_Operators.t1n_trans; [exact Hxy|exact IHr].
Qed.

(** Operand paths run backwards along dependent paths. *)
Lemma oreach_reach s j k : back_edges s -> oreach s j k -> reach s k j.
Proof.
  intros Hbe Hr. induction Hr as [x|x y z [nd [Ex Hy]] _ IHr].
  - apply Relation_Operators.rt1n_refl.
  - eapply reach_snoc; [exact IHr|]. apply (Hbe x nd y Ex Hy).
Qed.

(** Under [dep_sound] no dependent edge enters an input node. *)
Lemma reach_input s i j nd name :
  dep_sound s -> s !! j = Some nd -> op_type nd = Input name -> reach s i j -> i = j.
Proof.
  intros Hds Ej Eop Hr. revert Ej.
  induction Hr as [x|x y z Hxy _ IHr]; intros Ej; [done|].
  specialize (IHr Ej). subst z.
  destruct (Hds x y Hxy) as (ndy & Ey & Ho). rewrite Ej in Ey. injection Ey as <-.
  rewrite Eop in Ho. apply elem_of_nil in Ho. done.
Qed.

Lemma cleared_reach f s i k : k ∈ cleared f s i -> reach s i k.
Proof.
  revert i. induction f as [|f IH]; intros i Hk; simpl in Hk; [apply elem_of_nil in Hk; done|].
  destruct (s !! i) as [nd|] eqn:Ei; [|apply elem_of_nil in Hk; done].
  apply elem_of_cons in Hk as [->|Hk]; [apply Relation_Operators.rt1n_refl|].
  apply list_elem_of_In, in_flat_map in Hk as (d & Hd & Hk).
  apply list_elem_of_In in Hk.
  eapply Relation_Operators.rt1n_trans; [|apply IH; exact Hk].
  unfold dep_edge, deps_of. rewrite Ei. apply list_elem_of_In. done.
Qed.

(** ** [clear_cash] empties exactly the caches of the nodes it visits *)

Lemma cleared_shape f s s' i : shape s = shape s' -> cleared f s i = cleared f s' i.
Proof.
  intros Hs. revert i. induction f as [|f IH]; intros i; [done|]. simpl.
  destruct (s !! i) as [nd|] eqn:Ei.
  - destruct (shape_lookup _ _ _ _ Hs Ei) as (nd' & Ei' & _ & Ed). rewrite Ei', Ed.
    f_equal. apply flat_map_ext. intros d. apply IH.
  - rewrite (shape_lookup_None _ _ _ Hs Ei). done.
Qed.

Lemma clear_cash_spec f s i j :
  cache_of (clear_cash f s i) j =
  if decide (j ∈ cleared f s i) then None else cache_of s j.
Proof.
  revert s i j. induction f as [|f IH]; intros s i j; cbn [clear_cash cleared].
  { case_decide as Hj; [apply elem_of_nil in Hj|]; done. }
  destruct (s !! i) as [nd|] eqn:Ei.
  2:{ case_decide as Hj; [apply elem_of_nil in Hj|]; done. }
  assert (Hfold : forall l acc P, shape acc = shape s ->
            (forall j, cache_of acc j = if decide (j ∈ P) then None else cache_of s j) ->
            forall j, cache_of (fold_left (fun acc dep => clear_cash f acc dep) l acc) j =
                      if decide (j ∈ P ++ flat_map (cleared f s) l)
                      then None else cache_of s j).
  { induction l as [|d l IHl]; intros acc P Hs Hc j'; simpl.
    - rewrite app_nil_r. apply Hc.
    - rewrite (IHl _ (P ++ cleared f s d)).
      + rewrite app_assoc. done.
      + rewrite shape_clear_cash. done.
      + intros k. rewrite IH, Hc, (cleared_shape f acc s) by done.
        destruct (decide (k ∈ cleared f s d)), (decide (k ∈ P)),
          (decide (k ∈ P ++ cleared f s d)); set_solver. }
  apply (Hfold _ _ [i]).
  - apply shape_set_cache.
  - intros k. destruct (decide (k ∈ [i])) as [Hk|Hk].
    + apply list_elem_of_singleton in Hk as ->.
      apply cache_of_set_cache_eq. eapply lookup_lt_Some; eauto.
    + rewrite cache_of_set_cache_ne; [done|]. intros ->. apply Hk. set_solver.
Qed.

Lemma cleared_self f s i nd : s !! i = Some nd -> i ∈ cleared (S f) s i.
Proof. intros Ei. simpl. rewrite Ei. left. Qed.

(** ** [set] on an input node *)

Lemma set_ignored s i v :
  (forall nd, s !! i = Some nd -> forall name, op_type nd <> Input name) -> set s i v = s.
Proof.
  intros Hni. unfold set. destruct (s !! i) as [nd|] eqn:Ei; [|done].
  destruct (op_type nd) as [name| | | |] eqn:Eop; try done.
  exfalso. apply (Hni nd eq_refl name Eop).
Qed.

Lemma set_input_cache s i nd name v k :
  s !! i = Some nd -> op_type nd = Input name ->
  cache_of (set s i v) k =
  if decide (k = i) then Some v
  else if decide (k ∈ cleared (length s) s i) then None else cache_of s k.
Proof.
  intros Ei Eop. unfold set. rewrite Ei, Eop.
  destruct (decide (k = i)) as [->|Hki].
  - apply cache_of_set_cache_eq. rewrite length_clear_cash. eapply lookup_lt_Some; eauto.
  - rewrite cache_of_set_cache_ne by done. apply clear_cash_spec.
Qed.

Lemma length_set s i v : length (set s i v) = length s.
Proof. apply shape_length. apply shape_set. Qed.

(** Two arenas with the same shape and the same caches are equal. *)
Lemma state_ext s s' :
  shape s = shape s' -> (forall j, cache_of s j = cache_of s' j) -> s = s'.
Proof.
  intros Hs Hc. apply list_eq. intros j.
  destruct (s !! j) as [nd|] eqn:Ej.
  - destruct (shape_lookup _ _ _ _ Hs Ej) as (nd' & Ej' & Eop & Ed). rewrite Ej'.
    specialize (Hc j). rewrite (lookup_cache_of _ _ _ Ej), (lookup_cache_of _ _ _ Ej') in Hc.
    destruct nd, nd'; simpl in *; subst. done.
  - rewrite (shape_lookup_None _ _ _ Hs Ej). done.
Qed.

Lemma input_view s i :
  (exists nd name, s !! i = Some nd /\ op_type nd = Input name) \/
  (forall nd, s !! i = Some nd -> forall name, op_type nd <> Input name).
Proof.
  destruct (s !! i) as [nd|] eqn:Ei; [|right; done].
  destruct (op_type nd) as [name| | | |] eqn:Eop; [left; eauto|..];
    right; intros nd' E name; injection E as <-; rewrite Eop; discriminate.
Qed.

Lemma input_shape s t i nd name :
  shape s = shape t -> s !! i = Some nd -> op_type nd = Input name ->
  exists nd', t !! i = Some nd' /\ op_type nd' = Input name.
Proof.
  intros Hs Ei Eop. destruct (shape_lookup _ _ _ _ Hs Ei) as (nd' & Ei' & Eop' & _).
  exists nd'. split; congruence.
Qed.

Lemma non_input_shape s t i :
  shape s = shape t ->
  (forall nd, s !! i = Some nd -> forall name, op_type nd <> Input name) ->
  (forall nd, t !! i = Some nd -> forall name, op_type nd <> Input name).
Proof.
  intros Hs Hni nd' Ei' name.
  destruct (s !! i) as [nd|] eqn:Ei.
  - destruct (shape_lookup _ _ _ _ Hs Ei) as (nd'' & E & Eop & _).
    rewrite Ei' in E. injection E as <-. rewrite Eop. apply (Hni nd). done.
  - rewrite (shape_lookup_None _ _ _ Hs Ei) in Ei'. discriminate.
Qed.

(** [set] keeps every present cache equal to the value of its node. *)
Lemma set_coherent s i v :
  wf s -> back_edges s -> coherent s -> coherent (set s i v).
Proof.
  intros Hwf Hbe Hco.
  destruct (input_view s i) as [(nd & name & Ei & Eop)|Hni];
    [|rewrite set_ignored by done; done].
  assert (Hsh : shape (set s i v) = shape s) by apply shape_set.
  assert (Wf' : wf (set s i v)) by (apply wf_set; done).
  assert (Hfr : forall k, ~ reach s i k -> cache_of (set s i v) k = cache_of s k).
  { intros k Hnr. rewrite (set_input_cache s i nd name v k Ei Eop).
    rewrite decide_False by (intros ->; apply Hnr; apply Relation_Operators.rt1n_refl).
    rewrite decide_False; [done|]. intros Hk. apply Hnr. eapply cleared_reach. exact Hk. }
  assert (Hpl : forall k, reach s i k -> k <> i -> cache_of (set s i v) k = None).
  { intros k Hr Hki. apply reach_neq_plus in Hr; [|congruence].
    destruct (reach_plus_dpath _ _ _ Hr) as (l & Hl & Hp).
    destruct (dpath_bound _ _ _ _ Hwf Hp) as [Hle Hlt]. specialize (Hlt Hl).
    unfold set. rewrite Ei, Eop. rewrite cache_of_set_cache_ne by done.
    apply (clear_cash_path _ _ _ l); [done|lia]. }
  intros j w Hj.
  destruct (decide (j = i)) as [->|Hji].
  - rewrite (set_input_cache s i nd name v i Ei Eop), decide_True in Hj by done.
    destruct (input_shape s (set s i v) i nd name (eq_sym Hsh) Ei Eop) as (nd' & Ei' & Eop').
    rewrite (value_unfold _ _ _ Wf' Ei'), Eop'.
    rewrite <- (lookup_cache_of _ _ _ Ei'). rewrite (set_input_cache s i nd name v i Ei Eop).
    rewrite decide_True by done. done.
  - assert (Hnr : ~ reach s i j).
    { intros Hr. rewrite (Hpl j Hr Hji) in Hj. discriminate. }
    rewrite Hfr in Hj by done. unfold value.
    rewrite (denot_local (S j) s (set s i v) j (eq_sym Hsh)); [apply Hco; done|].
    intros k ndk nm Hor Ek Eopk. apply Hfr. intros Hik. apply Hnr.
    eapply reach_trans; [exact Hik|]. apply oreach_reach; done.
Qed.

Lemma back_edges_shape s t : shape s = shape t -> back_edges s -> back_edges t.
Proof.
  intros Hs Hbe n nd' o En' Ho.
  destruct (shape_lookup _ _ _ _ (eq_sym Hs) En') as (nd & En & Eop & _).
  rewrite <- (shape_deps_of _ _ _ Hs). apply (Hbe n nd o En). congruence.
Qed.

Lemma dep_sound_shape s t : shape s = shape t -> dep_sound s -> dep_sound t.
Proof.
  intros Hs Hds o d Hd. rewrite <- (shape_deps_of _ _ _ Hs) in Hd.
  destruct (Hds o d Hd) as (nd & Ed & Ho).
  destruct (shape_lookup _ _ _ _ Hs Ed) as (nd' & Ed' & Eop & _).
  exists nd'. split; [done|]. congruence.
Qed.

Lemma coherent_compute s n : wf s -> coherent s -> coherent (final (compute n s)).
Proof.
  intros Hwf Hco. pose proof (traverse_correct (length s) n s Hwf Hco) as K.
  unfold compute. destruct (traverse (length s) n s); simpl in *; [apply K|exact K].
Qed.

(** ** Construction: the net effect of a constructor *)

Lemma attach_lookup m os t j :
  fold_left (fun acc o => add_dependent_node m o acc) os t !! j =
  (fun nd => with_dependents nd (dependent_nodes nd ++ repeat m (count_occ Nat.eq_dec os j)))
    <$> t !! j.
Proof.
  revert t. induction os as [|o os IH]; intros t; simpl.
  - destruct (t !! j) as [[op ds c]|]; simpl; [rewrite app_nil_r|]; done.
  - rewrite IH. destruct (Nat.eq_dec o j) as [<-|Hoj].
    + destruct (t !! o) as [nd|] eqn:Eo.
      * rewrite (lookup_add_dep_eq _ _ _ _ Eo). simpl.
        rewrite <- app_assoc. done.
      * unfold add_dependent_node. rewrite Eo, Eo. done.
    + rewrite lookup_add_dep_ne by done. done.
Qed.

Lemma length_attach m os t :
  length (fold_left (fun acc o => add_dependent_node m o acc) os t) = length t.
Proof.
  revert t. induction os as [|o os IH]; intros t; simpl; [done|].
  rewrite IH. apply length_add_dep.
Qed.

Lemma built_attach s op :
  (forall o, o ∈ operands op -> o < length s) ->
  built s (fold_left (fun acc o => add_dependent_node (length s) o acc) (operands op)
             (s ++ [mk_node op [] None])) (length s) op.
Proof.
  intros Hop. split; [done|]. split.
  { rewrite length_attach, length_app. simpl. lia. }
  split.
  - rewrite attach_lookup, list_lookup_middle by done. simpl.
    assert (Hn : count_occ Nat.eq_dec (operands op) (length s) = 0).
    { apply count_occ_not_In. intros Hin. apply list_elem_of_In, Hop in Hin. lia. }
    rewrite Hn. done.
  - intros j nd Ej. rewrite attach_lookup.
    rewrite (lookup_app_l_Some _ _ _ _ Ej). done.
Qed.

(** Lookups in an arena after a constructor. *)
Lemma built_lookup s s' m op k nd' :
  built s s' m op -> s' !! k = Some nd' ->
  (k = m /\ nd' = mk_node op [] None) \/
  (exists nd, s !! k = Some nd /\
     nd' = mk_node (op_type nd)
             (dependent_nodes nd ++ repeat m (count_occ Nat.eq_dec (operands op) k))
             (cache nd)).
Proof.
  intros (-> & Hl & Em & Hold) Ek.
  pose proof (lookup_lt_Some _ _ _ Ek) as Hk. rewrite Hl in Hk.
  destruct (decide (k = length s)) as [->|Hne].
  - left. rewrite Em in Ek. split; congruence.
  - right. destruct (lookup_lt_is_Some_2 s k) as [nd Ek0]; [lia|].
    exists nd. split; [done|]. rewrite (Hold k nd Ek0) in Ek. congruence.
Qed.

Lemma built_extends s s' m op : built s s' m op -> extends s s'.
Proof.
  intros (_ & _ & _ & Hold) k nd Ek. eexists. split; [apply (Hold k nd Ek)|]. done.
Qed.

Lemma built_invariants s s' m op :
  built s s' m op -> (forall o, o ∈ operands op -> o < length s) ->
  wf s -> back_edges s -> dep_sound s -> coherent s ->
  wf s' /\ back_edges s' /\ dep_sound s' /\ coherent s'.
Proof.
  intros Hb Hop Hwf Hbe Hds Hco.
  pose proof Hb as (Hm & Hl & Em & Hold). subst m.
  assert (Hdeps : forall o ndo, s !! o = Some ndo ->
            deps_of s' o = dependent_nodes ndo ++
                           repeat (length s) (count_occ Nat.eq_dec (operands op) o)).
  { intros o ndo Eo. unfold deps_of. rewrite (Hold o ndo Eo). done. }
  assert (Hin_new : forall o, o ∈ operands op -> length s ∈ deps_of s' o).
  { intros o Ho. destruct (lookup_lt_is_Some_2 s o) as [ndo Eo]; [apply Hop; done|].
    rewrite (Hdeps o ndo Eo). apply elem_of_app. right.
    assert (Hc : count_occ Nat.eq_dec (operands op) o > 0)
      by (apply count_occ_In, list_elem_of_In; done).
    destruct (count_occ Nat.eq_dec (operands op) o); [lia|]. left. }
  split; [|split; [|split]].
  - intros k nd' Ek. pose proof (lookup_lt_Some _ _ _ Ek) as Hk.
    destruct (built_lookup _ _ _ _ _ _ Hb Ek) as [[-> ->]|(nd & Ek0 & ->)]; simpl.
    + split; [exact Hop|]. intros d Hd. apply elem_of_nil in Hd. done.
    + pose proof (lookup_lt_Some _ _ _ Ek0) as Hk0.
      destruct (Hwf k nd Ek0) as [H1 H2]. split; [done|]. intros d Hd.
      apply elem_of_app in Hd as [Hd|Hd]; [specialize (H2 d Hd); lia|].
      apply list_elem_of_In, repeat_spec in Hd. lia.
  - intros n nd' o En' Ho.
    destruct (built_lookup _ _ _ _ _ _ Hb En') as [[-> ->]|(nd & En & ->)]; simpl in Ho.
    + apply Hin_new. done.
    + pose proof (Hbe n nd o En Ho) as Hd. unfold deps_of in Hd.
      destruct (s !! o) as [ndo|] eqn:Eo; [|apply elem_of_nil in Hd; done].
      rewrite (Hdeps o ndo Eo). apply elem_of_app. left. done.
  - intros o d Hd. unfold deps_of in Hd.
    destruct (s' !! o) as [ndo'|] eqn:Eo'; [|apply elem_of_nil in Hd; done].
    destruct (built_lookup _ _ _ _ _ _ Hb Eo') as [[-> ->]|(ndo & Eo & ->)];
      simpl in Hd; [apply elem_of_nil in Hd; done|].
    apply elem_of_app in Hd as [Hd|Hd].
    + destruct (Hds o d) as (ndd & Ed & Hod); [unfold deps_of; rewrite Eo; done|].
      eexists. split; [apply (Hold d ndd Ed)|]. done.
    + apply list_elem_of_In in Hd. pose proof (repeat_spec _ _ _ Hd) as ->.
      destruct (count_occ Nat.eq_dec (operands op) o) eqn:Ec; [simpl in Hd; done|].
      exists (mk_node op [] None). split; [done|]. simpl.
      apply list_elem_of_In, (count_occ_In Nat.eq_dec). lia.
  - intros k w Hk. unfold cache_of in Hk.
    destruct (s' !! k) as [nd'|] eqn:Ek'; [|discriminate].
    destruct (built_lookup _ _ _ _ _ _ Hb Ek') as [[-> ->]|(nd & Ek & ->)];
      simpl in Hk; [discriminate|].
    unfold value. apply (denot_extends _ s); [eapply built_extends; exact Hb|].
    apply Hco. rewrite (lookup_cache_of _ _ _ Ek). done.
Qed.

Lemma create_input_built s name :
  built s (create_input s name).2 (create_input s name).1 (Input name).
Proof. apply (built_attach s (Input name)). intros o Ho. apply elem_of_nil in Ho. done. Qed.

Ltac operands_bound :=
  intros ? Ho; simpl in Ho; repeat (apply elem_of_cons in Ho as [->|Ho]);
  first [ done | apply elem_of_nil in Ho; done ].

Lemma add_built s a b : a < length s -> b < length s ->
  built s (add s a b).2 (add s a b).1 (Add a b).
Proof. intros Ha Hb. apply (built_attach s (Add a b)). operands_bound. Qed.

Lemma mul_built s a b : a < length s -> b < length s ->
  built s (mul s a b).2 (mul s a b).1 (Mul a b).
Proof. intros Ha Hb. apply (built_attach s (Mul a b)). operands_bound. Qed.

Lemma pow_f32_built s b e : b < length s -> e < length s ->
  built s (pow_f32 s b e).2 (pow_f32 s b e).1 (PowF32 b e).
Proof. intros Hb He. apply (built_attach s (PowF32 b e)). operands_bound. Qed.

Lemma sin_built s a : a < length s ->
  built s (sin s a).2 (sin s a).1 (Sin a).
Proof. intros Ha. apply (built_attach s (Sin a)). operands_bound. Qed.

(** ** The invariants of the arenas reachable through the API *)

Lemma api_inv s : api s -> wf s /\ back_edges s /\ dep_sound s /\ coherent s.
Proof.
  induction 1 as [| s name _ IH | s a b _ IH Ha Hb | s a b _ IH Ha Hb
                  | s b e _ IH Hb He | s a _ IH Ha | s i v _ IH | s n _ IH].
  - split; [apply wf_nil|]. split; [|split].
    + intros n nd o En. rewrite lookup_nil in En. discriminate.
    + intros o d Hd. unfold deps_of in Hd. rewrite lookup_nil in Hd.
      apply elem_of_nil in Hd. done.
    + intros k w Hk. unfold cache_of in Hk. rewrite lookup_nil in Hk. discriminate.
  - destruct IH as (? & ? & ? & ?). eapply built_invariants; [apply create_input_built| |done..].
    intros o Ho. apply elem_of_nil in Ho. done.
  - destruct IH as (? & ? & ? & ?). eapply built_invariants; [apply add_built; done| |done..].
    operands_bound; lia.
  - destruct IH as (? & ? & ? & ?). eapply built_invariants; [apply mul_built; done| |done..].
    operands_bound; lia.
  - destruct IH as (? & ? & ? & ?). eapply built_invariants; [apply pow_f32_built; done| |done..].
    operands_bound; lia.
  - destruct IH as (? & ? & ? & ?). eapply built_invariants; [apply sin_built; done| |done..].
    operands_bound; lia.
  - destruct IH as (? & ? & ? & ?). pose proof (shape_set s i v) as Hs.
    split; [apply wf_set; done|]. split; [apply (back_edges_shape s); done|].
    split; [apply (dep_sound_shape s); done|]. apply set_coherent; done.
  - destruct IH as (? & ? & ? & ?). pose proof (fills_compute s n) as [Hs _].
    split; [apply wf_compute; done|]. split; [apply (back_edges_shape s); done|].
    split; [apply (dep_sound_shape s); done|]. apply coherent_compute; done.
Qed.

Lemma inputs_setb_sound s : inputs_setb s = true -> inputs_set s.
Proof.
  unfold inputs_setb. intros Hb j nd name Ej Eop.
  rewrite forallb_forall in Hb.
  specialize (Hb nd (proj1 (list_elem_of_In _ _) (list_elem_of_lookup_2 _ _ _ Ej))).
  rewrite Eop in Hb. destruct (cache nd); done.
Qed.

Lemma oreach_le s n j : wf s -> oreach s n j -> j <= n.
Proof.
  intros Hwf Hr. induction Hr as [x|x y z [nd [Ex Hy]] _ IHr]; [lia|].
  pose proof (wf_operands _ _ _ Hwf Ex y Hy). lia.
Qed.

(** ** Evaluation, invalidation and construction: the main theorems *)

(** [compute] on an arena whose present caches hold their nodes' values
    returns the value of the expression rooted at the node, keeps the
    caches coherent, and changes no node's value. *)
Theorem compute_returns_value s n v s' :
  wf s -> coherent s -> compute n s = Ok v s' ->
  value s n = Some v /\ coherent s' /\ forall j, value s' j = value s j.
Proof.
  intros Hwf Hco E.
  pose proof (traverse_correct (length s) n s Hwf Hco) as K.
  pose proof (traverse_inputs (length s) n s) as Hin.
  pose proof (compute_Ok_fills s n v s' E) as [Hs _].
  unfold compute in E. rewrite E in K, Hin. simpl in Hin.
  destruct K as [Hv Hco']. split; [done|]. split; [done|].
  intros j. apply value_keep; done.
Qed.

(** With every input node set, [compute] on a node of the arena never
    panics. *)
Theorem compute_no_panic_inputs_set s n :
  wf s -> inputs_set s -> n < length s -> exists v s', compute n s = Ok v s'.
Proof. intros Hwf Hin Hn. apply traverse_total; done. Qed.

(** [compute n], returning or panicking, writes no cache outside the nodes
    that [n] reaches through operand edges. *)
Theorem compute_writes_only_cone s n j :
  ~ oreach s n j -> cache_of (final (compute n s)) j = cache_of s j.
Proof. intros Hnr. apply traverse_cone. done. Qed.

(** [set] keeps every present cache equal to its node's value, when every
    operand edge has its dependent edge back. *)
Theorem set_keeps_coherent s i v :
  wf s -> back_edges s -> coherent s -> coherent (set s i v).
Proof. apply set_coherent. Qed.

(** Of two [set]s on the same node, the second one wins: the arena is as if
    only the second had run. *)
Theorem set_last_wins s i v w : set (set s i v) i w = set s i w.
Proof.
  destruct (input_view s i) as [(nd & name & Ei & Eop)|Hni].
  2:{ rewrite (set_ignored s i v) by done. done. }
  pose proof (shape_set s i v) as Hs1.
  destruct (input_shape s (set s i v) i nd name (eq_sym Hs1) Ei Eop) as (nd1 & Ei1 & Eop1).
  apply state_ext; [rewrite !shape_set; done|]. intros k.
  rewrite (set_input_cache _ i nd1 name w k Ei1 Eop1),
          (set_input_cache s i nd name w k Ei Eop),
          (set_input_cache s i nd name v k Ei Eop).
  rewrite length_set, (cleared_shape _ (set s i v) s) by done.
  destruct (decide (k = i)); [done|].
  destruct (decide (k ∈ cleared (length s) s i)); done.
Qed.

(** [set]s on two different nodes commute, when every dependent edge has
    its operand edge. *)
Theorem set_commute s i j v w :
  dep_sound s -> i <> j -> set (set s i v) j w = set (set s j w) i v.
Proof.
  intros Hds Hij.
  destruct (input_view s i) as [(ndi & ni & Ei & Eopi)|Hni].
  2:{ rewrite (set_ignored s i v) by done.
      rewrite (set_ignored (set s j w) i v); [done|].
      apply (non_input_shape s); [symmetry; apply shape_set|done]. }
  destruct (input_view s j) as [(ndj & nj & Ej & Eopj)|Hnj].
  2:{ rewrite (set_ignored s j w) by done.
      rewrite (set_ignored (set s i v) j w); [done|].
      apply (non_input_shape s); [symmetry; apply shape_set|done]. }
  pose proof (shape_set s i v) as Hsi. pose proof (shape_set s j w) as Hsj.
  destruct (input_shape s (set s i v) j ndj nj (eq_sym Hsi) Ej Eopj) as (ndj' & Ej' & Eopj').
  destruct (input_shape s (set s j w) i ndi ni (eq_sym Hsj) Ei Eopi) as (ndi' & Ei' & Eopi').
  assert (Hji : j ∉ cleared (length s) s i).
  { intros Hc. apply Hij. eapply reach_input; [done|exact Ej|exact Eopj|].
    eapply cleared_reach. exact Hc. }
  assert (Hij' : i ∉ cleared (length s) s j).
  { intros Hc. apply Hij. symmetry. eapply reach_input; [done|exact Ei|exact Eopi|].
    eapply cleared_reach. exact Hc. }
  apply state_ext; [rewrite !shape_set; done|]. intros k.
  rewrite (set_input_cache _ j ndj' nj w k Ej' Eopj'),
          (set_input_cache _ i ndi' ni v k Ei' Eopi'),
          (set_input_cache s i ndi ni v k Ei Eopi),
          (set_input_cache s j ndj nj w k Ej Eopj).
  rewrite !length_set, (cleared_shape _ (set s i v) s), (cleared_shape _ (set s j w) s)
    by done.
  repeat case_decide; subst; try done; try congruence; tauto.
Qed.

(** [add a b] returns the handle [m] of a new last node [Add a b] with no
    dependents and no cache, and appends [m] to the dependents of [a] and of
    [b] (twice to those of [a] when [a = b]); no other node changes. *)
Theorem add_effect s a b : a < length s -> b < length s ->
  built s (add s a b).2 (add s a b).1 (Add a b).
Proof. apply add_built. Qed.

(** The same for [mul a b] and a new node [Mul a b]. *)
Theorem mul_effect s a b : a < length s -> b < length s ->
  built s (mul s a b).2 (mul s a b).1 (Mul a b).
Proof. apply mul_built. Qed.

(** The same for [pow_f32 b e] and a new node [PowF32 b e]. *)
Theorem pow_f32_effect s b e : b < length s -> e < length s ->
  built s (pow_f32 s b e).2 (pow_f32 s b e).1 (PowF32 b e).
Proof. apply pow_f32_built. Qed.

(** The same for [sin a] and a new node [Sin a], whose handle is appended
    once to the dependents of [a]. *)
Theorem sin_effect s a : a < length s ->
  built s (sin s a).2 (sin s a).1 (Sin a).
Proof. apply sin_built. Qed.

(** Every arena reachable through the API is well formed, has a dependent
    edge for each operand edge and an operand edge for each dependent edge,
    and holds in each present cache the value of its node. *)
Theorem api_invariants s :
  api s -> wf s /\ back_edges s /\ dep_sound s /\ coherent s.
Proof. apply api_inv. Qed.

(** On an arena reachable through the API with every input set, [compute]
    on any node returns, without panicking, the value of the expression
    rooted at that node over the current input values: no cache is ever
    stale. *)
Theorem api_compute_value s n :
  api s -> inputs_set s -> n < length s ->
  exists v s', compute n s = Ok v s' /\ value s n = Some v.
Proof.
  intros Hapi Hin Hn. destruct (api_inv s Hapi) as (Hwf & _ & _ & Hco).
  destruct (traverse_total (length s) n s Hwf Hin Hn Hn) as (v & s' & E).
  exists v, s'. split; [done|].
  pose proof (traverse_correct (length s) n s Hwf Hco) as K. rewrite E in K.
  apply K.
Qed.

End Proofs.

(** ** Counterexamples *)

(** C5 as stated fails: [set] on the [Mul] node of [mul(x, x)] returns
    normally and changes nothing; no error is reported. *)
Lemma set_non_input_not_rejected :
  square_graph !! 1 = Some (mk_node (Mul 0 0) [] None) /\
  set square_graph 1 5%Z = square_graph.
Proof. split; vm_compute; reflexivity. Qed.

(** C6 as stated fails: in [(x1 + x1) + x2] with x2 unset, [compute] panics
    on x2 after having cached [x1 + x1] = 2 in node 2, and that write stays. *)
Lemma compute_panic_keeps_partial_write :
  cache_of partial_graph 2 = None /\
  match compute 3 partial_graph with
  | Err UnwrapNone s' => cache_of s' 2 = Some 2%Z
  | _ => False
  end.
Proof. split; vm_compute; reflexivity. Qed.

(** ** Witnesses: the theorems applied to the example arenas *)

Lemma compute_operator_empty_cache_witness :
  ref_graph !! 8 = Some (mk_node (Add 0 7) [] None) /\
  compute 8 ref_graph =
    (let* x := compute 0 in let* y := compute 7 in
     let res := f32_add x y in let* _ := put_cache 8 (Some res) in ret res) ref_graph.
Proof.
  split; [vm_compute; reflexivity|].
  apply (proj1 (compute_operator_empty_cache ref_graph 8 (mk_node (Add 0 7) [] None)
                  (wfb_wf ref_graph ltac:(vm_compute; reflexivity))
                  ltac:(vm_compute; reflexivity) eq_refl)).
  reflexivity.
Defined.

Lemma compute_memoized_witness :
  compute 8 ref_graph = Ok (-57)%Z ref_computed /\
  compute 8 ref_computed = Ok (-57)%Z ref_computed /\
  traverse 1 8 ref_computed = Ok (-57)%Z ref_computed.
Proof.
  assert (E : compute 8 ref_graph = Ok (-57)%Z ref_computed)
    by (vm_compute; reflexivity).
  split; [exact E|]. exact (compute_memoized _ _ _ _ E).
Defined.

Lemma compute_frame_witness :
  cache_of ref_computed 8 = Some (-57)%Z /\
  compute 8 ref_computed = Ok (-57)%Z ref_computed.
Proof.
  assert (E : cache_of ref_computed 8 = Some (-57)%Z) by (vm_compute; reflexivity).
  split; [exact E|]. exact (proj2 (compute_frame ref_computed 8) _ E).
Defined.

Lemma compute_unset_input_panics_witness :
  partial_graph !! 1 = Some (mk_node (Input "x2") [3] None) /\
  compute 1 partial_graph = Err UnwrapNone partial_graph.
Proof.
  assert (E : partial_graph !! 1 = Some (mk_node (Input "x2") [3] None))
    by (vm_compute; reflexivity).
  split; [exact E|].
  exact (compute_unset_input_panics partial_graph 1 _
           (wfb_wf partial_graph ltac:(vm_compute; reflexivity)) E eq_refl).
Defined.

Lemma set_invalidates_witness :
  ref_computed !! 1 = Some (mk_node (Input "x2") [5; 7] (Some 2%Z)) /\
  cache_of (set ref_computed 1 3%Z) 1 = Some 3%Z /\
  (forall j, reach_plus ref_computed 1 j -> cache_of (set ref_computed 1 3%Z) j = None).
Proof.
  assert (E : ref_computed !! 1 = Some (mk_node (Input "x2") [5; 7] (Some 2%Z)))
    by (vm_compute; reflexivity).
  split; [exact E|].
  exact (set_invalidates ref_computed 1 _ "x2" 3%Z
           (wfb_wf ref_computed ltac:(vm_compute; reflexivity)) E eq_refl).
Defined.

Lemma set_frame_witness :
  ~ reach ref_computed 3 0 /\
  cache_of (set ref_computed 3 5%Z) 0 = cache_of ref_computed 0.
Proof.
  assert (N : ~ reach ref_computed 3 0).
  { intros Hr. apply reach_le in Hr; [lia|].
    apply wfb_wf. vm_compute. reflexivity. }
  split; [exact N|]. exact (set_frame ref_computed 3 5%Z 0 N).
Defined.

Lemma set_non_input_ignored_witness :
  square_graph !! 1 = Some (mk_node (Mul 0 0) [] None) /\
  set square_graph 1 5%Z = square_graph.
Proof.
  assert (E : square_graph !! 1 = Some (mk_node (Mul 0 0) [] None))
    by (vm_compute; reflexivity).
  split; [exact E|].
  apply (set_non_input_ignored square_graph 1 _ 5%Z E).
  intros name Hc. discriminate Hc.
Defined.

Lemma compute_panic_keeps_fills_witness :
  compute 3 partial_graph = Err UnwrapNone (final (compute 3 partial_graph)) /\
  cache_of (final (compute 3 partial_graph)) 3 = cache_of partial_graph 3 /\
  cache_of (final (compute 3 partial_graph)) 2 = Some 2%Z.
Proof.
  assert (E : compute 3 partial_graph = Err UnwrapNone (final (compute 3 partial_graph)))
    by (vm_compute; reflexivity).
  destruct (compute_panic_keeps_fills partial_graph 3 _ _
              (wfb_wf partial_graph ltac:(vm_compute; reflexivity)) E)
    as (_ & _ & Hq & Hnr).
  split; [exact E|]. split; [exact Hq|].
  exact (proj1 (proj2 (Hnr (mk_node (Add 2 1) [] None) 2 1 2%Z
                         (final (compute 2 partial_graph))
                         ltac:(vm_compute; reflexivity) eq_refl eq_refl
                         ltac:(vm_compute; reflexivity)))).
Defined.

Lemma mul_self_compute_witness :
  [mk_node (Input "x") [] None] !! 0 = Some (mk_node (F:=Z) (Input "x") [] None) /\
  compute 1 (snd (mul (set [mk_node (Input "x") [] None] 0 4%Z) 0 0)) =
    Ok 16%Z (set_cache (snd (mul (set [mk_node (Input "x") [] None] 0 4%Z) 0 0)) 1
                       (Some 16%Z)).
Proof.
  split; [reflexivity|].
  exact (proj2 (proj1 (mul_self_compute [mk_node (Input "x") [] None] 0 _ "x" 4%Z
                         eq_refl eq_refl))).
Defined.

(** [sum_graph] and [sum_computed] are reachable through the API. *)
Lemma sum_graph_api : api sum_graph.
Proof.
  unfold sum_graph. apply api_set, api_set, api_add.
  - apply api_create_input, api_create_input, api_nil.
  - apply Nat.ltb_lt. vm_compute. reflexivity.
  - apply Nat.ltb_lt. vm_compute. reflexivity.
Qed.

Lemma sum_computed_api : api sum_computed.
Proof. apply api_compute, sum_graph_api. Qed.

Lemma compute_returns_value_witness :
  compute 2 sum_graph = Ok 5%Z sum_computed /\ value sum_graph 2 = Some 5%Z /\
  coherent sum_computed.
Proof.
  assert (E : compute 2 sum_graph = Ok 5%Z sum_computed) by (vm_compute; reflexivity).
  destruct (api_inv _ sum_graph_api) as (Hwf & _ & _ & Hco).
  destruct (compute_returns_value sum_graph 2 5%Z sum_computed Hwf Hco E) as (Hv & Hc & _).
  split; [exact E|]. split; [exact Hv|exact Hc].
Defined.

Lemma compute_no_panic_inputs_set_witness :
  wfb ref_graph = true /\ inputs_setb ref_graph = true /\ 8 < length ref_graph /\
  exists v s', compute 8 ref_graph = Ok v s'.
Proof.
  assert (W : wfb ref_graph = true) by (vm_compute; reflexivity).
  assert (I : inputs_setb ref_graph = true) by (vm_compute; reflexivity).
  assert (L : 8 < length ref_graph) by (apply Nat.ltb_lt; vm_compute; reflexivity).
  split; [exact W|]. split; [exact I|]. split; [exact L|].
  exact (compute_no_panic_inputs_set ref_graph 8 (wfb_wf _ W) (inputs_setb_sound _ I) L).
Defined.

Lemma compute_writes_only_cone_witness :
  ~ oreach ref_graph 4 5 /\
  cache_of (final (compute 4 ref_graph)) 5 = cache_of ref_graph 5.
Proof.
  assert (N : ~ oreach ref_graph 4 5).
  { intros Hr. apply oreach_le in Hr; [lia|]. apply wfb_wf. vm_compute. reflexivity. }
  split; [exact N|]. exact (compute_writes_only_cone ref_graph 4 5 N).
Defined.

Lemma set_keeps_coherent_witness :
  cache_of sum_computed 2 = Some 5%Z /\ coherent (set sum_computed 0 7%Z).
Proof.
  destruct (api_inv _ sum_computed_api) as (Hwf & Hbe & _ & Hco).
  split; [vm_compute; reflexivity|].
  exact (set_keeps_coherent sum_computed 0 7%Z Hwf Hbe Hco).
Defined.

Lemma set_commute_witness :
  set (set sum_computed 0 7%Z) 1 8%Z = set (set sum_computed 1 8%Z) 0 7%Z.
Proof.
  destruct (api_inv _ sum_computed_api) as (_ & _ & Hds & _).
  apply (set_commute sum_computed 0 1 7%Z 8%Z Hds). lia.
Defined.

Lemma add_effect_witness :
  1 < length ref_graph /\ 2 < length ref_graph /\
  built ref_graph (add ref_graph 1 2).2 (add ref_graph 1 2).1 (Add 1 2).
Proof.
  assert (L1 : 1 < length ref_graph) by (apply Nat.ltb_lt; vm_compute; reflexivity).
  assert (L2 : 2 < length ref_graph) by (apply Nat.ltb_lt; vm_compute; reflexivity).
  split; [exact L1|]. split; [exact L2|]. exact (add_effect ref_graph 1 2 L1 L2).
Defined.

Lemma mul_effect_witness :
  1 < length ref_graph /\
  built ref_graph (mul ref_graph 1 1).2 (mul ref_graph 1 1).1 (Mul 1 1).
Proof.
  assert (L : 1 < length ref_graph) by (apply Nat.ltb_lt; vm_compute; reflexivity).
  split; [exact L|]. exact (mul_effect ref_graph 1 1 L L).
Defined.

Lemma pow_f32_effect_witness :
  2 < length ref_graph /\ 3 < length ref_graph /\
  built ref_graph (pow_f32 ref_graph 2 3).2 (pow_f32 ref_graph 2 3).1 (PowF32 2 3).
Proof.
  assert (L2 : 2 < length ref_graph) by (apply Nat.ltb_lt; vm_compute; reflexivity).
  assert (L3 : 3 < length ref_graph) by (apply Nat.ltb_lt; vm_compute; reflexivity).
  split; [exact L2|]. split; [exact L3|]. exact (pow_f32_effect ref_graph 2 3 L2 L3).
Defined.

Lemma sin_effect_witness :
  8 < length ref_graph /\
  built ref_graph (sin ref_graph 8).2 (sin ref_graph 8).1 (Sin 8).
Proof.
  assert (L : 8 < length ref_graph) by (apply Nat.ltb_lt; vm_compute; reflexivity).
  split; [exact L|]. exact (sin_effect ref_graph 8 L).
Defined.

Lemma api_invariants_witness :
  api sum_computed /\
  wf sum_computed /\ back_edges sum_computed /\ dep_sound sum_computed /\
  coherent sum_computed.
Proof.
  split; [exact sum_computed_api|]. exact (api_invariants sum_computed sum_computed_api).
Defined.

Lemma api_compute_value_witness :
  api sum_graph /\ inputs_setb sum_graph = true /\ 2 < length sum_graph /\
  exists v s', compute 2 sum_graph = Ok v s' /\ value sum_graph 2 = Some v.
Proof.
  assert (I : inputs_setb sum_graph = true) by (vm_compute; reflexivity).
  assert (L : 2 < length sum_graph) by (apply Nat.ltb_lt; vm_compute; reflexivity).
  split; [exact sum_graph_api|]. split; [exact I|]. split; [exact L|].
  exact (api_compute_value sum_graph 2 sum_graph_api (inputs_setb_sound _ I) L).
Defined.
